(** * int4_gemm: the Triton matmul kernel, its host driver and the weight packer

    A shallow embedding of [torchbenchmark/operators/int4_gemm/kernel.py].
    On the host, integers are Python's and are modelled as [Z].  Inside the
    kernel they are machine integers: the offsets that index memory are
    computed with the wrap-around of their width written out ([wrap]).  The
    tile scheduler, which works on program ids and tile counts, is kept in
    [Z] with [//] and [%] read as [Z.div] and [Z.modulo]; these agree with
    the device's truncating division on the non-negative operands it applies
    them to.  Signed 8-bit tensor elements are [Z] values with the
    wrap-around written out ([to_int8]). *)

From Stdlib Require Import String ZArith List Lia Bool.
Import ListNotations.
Local Open Scope Z_scope.

(** ** The part of [triton.language] the kernel uses on integers *)

Module Tl.

(** [triton.cdiv(x, div)] of the host, on Python integers:
    [(x + div - 1) // div].  The kernel's [tl.cdiv] has this value where its
    machine arithmetic does not wrap ([cdiv_int] below). *)
Definition cdiv (x d : Z) : Z := (x + d - 1) / d.

(** [tl.arange(0, n)]. *)
Definition arange (n : Z) : list Z :=
  map Z.of_nat (seq 0 (Z.to_nat n)).

(** [range(0, n)] of the reduction loop. *)
Definition range (n : Z) : list Z := arange n.

End Tl.

(** ** Block configurations *)

Record Config : Type := mkConfig {
  BLOCK_SIZE_M : Z;
  BLOCK_SIZE_N : Z;
  BLOCK_SIZE_K : Z;
  GROUP_SIZE_M : Z;
  num_stages : Z;
  num_warps : Z
}.

(** The module assigns [AUTOTUNE_CONFIGS] twice; the second assignment is the
    one the decorator sees. *)
Definition AUTOTUNE_CONFIGS : list Config :=
  [ mkConfig 128 256 64 8 3 8 ].

(** ** Machine integers of the kernel

    [tl.program_id], [tl.arange] and the constant block sizes are 32-bit
    integers.  An integer argument of the launch (a dimension or a stride) is
    passed as a 32-bit integer when its value fits and as a 64-bit integer
    otherwise, and an operation is carried out at the wider width of its
    operands.  Products and sums wrap around at their width; [%] truncates.
    Adding an offset to a pointer is address arithmetic and does not wrap at
    32 bits. *)

(** The value of [z] in two's complement on [bits] bits: the integer of
    [[- 2 ^ (bits - 1), 2 ^ (bits - 1))] that has the [bits] low bits of
    [z]. *)
Definition wrap (bits z : Z) : Z :=
  let half := Z.shiftl 1 (bits - 1) in
  Z.land (z + half) (Z.ones bits) - half.

Definition int32 (z : Z) : Z := wrap 32 z.

(** The width at which a launch argument is passed. *)
Definition arg_bits (v : Z) : Z :=
  if (- 2 ^ 31 <=? v) && (v <? 2 ^ 31) then 32 else 64.

(** [arg * x] for a launch argument [arg] and a 32-bit offset [x]. *)
Definition mul_arg (arg x : Z) : Z := wrap (arg_bits arg) (arg * x).

(** [x + y] for two such products, of arguments [arg1] and [arg2]. *)
Definition add_args (arg1 arg2 x y : Z) : Z :=
  wrap (Z.max (arg_bits arg1) (arg_bits arg2)) (x + y).

(** [tl.cdiv(x, div)] inside the kernel, for a launch argument [x] and a
    constant block size [div]: the sum wraps at the width of [x] and [//]
    truncates. *)
Definition cdiv_int (x d : Z) : Z :=
  Z.quot (wrap (arg_bits x) (x + d - 1)) d.

(** ** Tile scheduler: lines 79-87 of [matmul_kernel]

    The mapping of a program id to its tile is kept in [Z]; the two tile
    counts it is given are computed by the kernel with [tl.cdiv]. *)

Definition grouped_tile (num_pid_m num_pid_n GROUP : Z) (pid : Z) : Z * Z :=
  let num_pid_in_group := GROUP * num_pid_n in
  let group_id := pid / num_pid_in_group in
  let first_pid_m := group_id * GROUP in
  let group_size_m := Z.min (num_pid_m - first_pid_m) GROUP in
  let pid_m := first_pid_m + (pid mod group_size_m) in
  let pid_n := (pid mod num_pid_in_group) / group_size_m in
  (pid_m, pid_n).

Definition tile_of_pid (M N : Z) (cfg : Config) (pid : Z) : Z * Z :=
  let num_pid_m := cdiv_int M (BLOCK_SIZE_M cfg) in
  let num_pid_n := cdiv_int N (BLOCK_SIZE_N cfg) in
  grouped_tile num_pid_m num_pid_n (GROUP_SIZE_M cfg) pid.

(** The launch size of the host driver's [grid] lambda. *)
Definition grid (M N : Z) (cfg : Config) : Z :=
  Tl.cdiv M (BLOCK_SIZE_M cfg) * Tl.cdiv N (BLOCK_SIZE_N cfg).

(** The id that the grouped mapping sends to tile [(m, n)]; used to show that
    no tile is omitted. *)
Definition grouped_pid (num_pid_m num_pid_n GROUP : Z) (m n : Z) : Z :=
  let g := m / GROUP in
  let h := Z.min (num_pid_m - g * GROUP) GROUP in
  let c := g * (GROUP * num_pid_n) in
  c + n * h + (m - g * GROUP - c) mod h.

(** ** Blocks

    A Triton block has a static shape fixed by the [tl.constexpr] block
    sizes.  A two-dimensional block is modelled as a function of its two
    indices; the index ranges are those of the [tl.arange] that built it.
    Broadcasting ([x[:, None]], [x[None, :]]) becomes the choice of which
    index a one-dimensional block is applied to. *)

Definition block (V : Type) : Type := Z -> Z -> V.

(** The addresses a block of pointers touches, in index order. *)
Definition block_addrs (d0 d1 : Z) (ptrs : block Z) : list Z :=
  flat_map (fun i => map (fun j => ptrs i j) (Tl.arange d1)) (Tl.arange d0).

(** The addresses a masked access touches: only where the mask holds. *)
Definition block_addrs_masked (d0 d1 : Z) (ptrs : block Z) (mask : block bool)
  : list Z :=
  flat_map (fun i =>
    flat_map (fun j => if mask i j then [ptrs i j] else []) (Tl.arange d1))
    (Tl.arange d0).

(** [tl.load(ptrs)]. *)
Definition tl_load {V} (mem : Z -> V) (ptrs : block Z) : block V :=
  fun i j => mem (ptrs i j).

(** [tl.load(ptrs, mask=mask, other=other)]. *)
Definition tl_load_masked {V} (mem : Z -> V) (ptrs : block Z)
    (mask : block bool) (other : V) : block V :=
  fun i j => if mask i j then mem (ptrs i j) else other.

(** [tl.store(ptrs, vals, mask=mask)]: the cells written, with their values. *)
Definition tl_store {V} (d0 d1 : Z) (ptrs : block Z) (vals : block V)
    (mask : block bool) : list (Z * V) :=
  flat_map (fun i =>
    flat_map (fun j => if mask i j then [(ptrs i j, vals i j)] else [])
      (Tl.arange d1))
    (Tl.arange d0).

(** ** The compute kernel: [matmul_kernel], lines 39-155

    Element values are kept abstract ([V] with its zero, sum, product and
    the rounding [to_bfloat16]); pointers are element offsets from the base
    pointer of their matrix.  [tl.device_assert] checks its condition only
    in a kernel that is compiled with device assertions (Triton's debug
    mode) and is skipped otherwise; [kernel.py] does not ask for that mode,
    so [DEBUG = false] is the kernel as the driver launches it. *)

Inductive instance_result (V : Type) : Type :=
| DeviceAssertFailed
| Finished (a_reads b_reads : list Z) (stores : list (Z * V)).

Arguments DeviceAssertFailed {V}.
Arguments Finished {V} a_reads b_reads stores.

Record loop_state (V : Type) : Type := mkLoop {
  accumulator : block V;
  a_ptrs : block Z;
  b_ptrs : block Z;
  a_reads : list Z;
  b_reads : list Z
}.

Arguments mkLoop {V}.
Arguments accumulator {V}.
Arguments a_ptrs {V}.
Arguments b_ptrs {V}.
Arguments a_reads {V}.
Arguments b_reads {V}.

Section Kernel.

Variable V : Type.
Variable zero : V.
Variables add mul : V -> V -> V.
Variable to_bfloat16 : V -> V.

(** What [a_ptr] and [b_ptr] point to. *)
Variables a_mem b_mem : Z -> V.

Variables M N K : Z.
Variables stride_am stride_ak stride_bk stride_bn stride_cm stride_cn : Z.
Variable cfg : Config.
Variable USE_INT8_WEIGHT : bool.

(** Whether device assertions are compiled in. *)
Variable DEBUG : bool.

Let BM := BLOCK_SIZE_M cfg.
Let BN := BLOCK_SIZE_N cfg.
Let BK := BLOCK_SIZE_K cfg.

(** [tl.dot(x, y)] for [x] of shape [[d0, inner]] and [y] of shape
    [[inner, d1]]. *)
Definition tl_dot (inner : Z) (x y : block V) : block V :=
  fun i j =>
    fold_left (fun s k => add s (mul (x i k) (y k j))) (Tl.arange inner) zero.

(** Lines 96-99. *)
Definition offs_am (pid_m : Z) : Z -> Z :=
  fun i => Z.rem (int32 (pid_m * BM + i)) M.
Definition offs_bn (pid_n : Z) : Z -> Z :=
  fun j => Z.rem (int32 (pid_n * BN + j)) N.
Definition offs_ak : Z -> Z := fun k => k.
Definition offs_bk : Z -> Z := fun k => k.

(** Line 105: a [[BLOCK_SIZE_N, BLOCK_SIZE_K]] block of pointers.  The sum in
    parentheses is an integer sum; only its result is added to [b_ptr]. *)
Definition b_ptrs_init (pid_n : Z) : block Z :=
  fun n k =>
    add_args stride_bk stride_bn
      (mul_arg stride_bk (offs_bk k)) (mul_arg stride_bn (offs_bn pid_n n)).

(** Line 106: a [[BLOCK_SIZE_K, BLOCK_SIZE_M]] block of pointers. *)
Definition a_ptrs_init (pid_m : Z) : block Z :=
  fun k m =>
    add_args stride_am stride_ak
      (mul_arg stride_am (offs_am pid_m m)) (mul_arg stride_ak (offs_ak k)).

(** Lines 137-140: the only conversion applied to the loaded weights. *)
Definition dequantize (b : block V) : block V :=
  if USE_INT8_WEIGHT then (fun n k => to_bfloat16 (b n k)) else b.

(** One iteration of the reduction loop, lines 115-145.  The two pointer
    blocks advance by the integer products [BLOCK_SIZE_K * stride_ak] and
    [BLOCK_SIZE_K * stride_bk]. *)
Definition loop_body (st : loop_state V) (k : Z) : loop_state V :=
  let a_mask : block bool := fun kk _ => offs_ak kk <? K - k * BK in
  let a := tl_load_masked a_mem (a_ptrs st) a_mask zero in
  let b := tl_load b_mem (b_ptrs st) in
  let b_f16 := dequantize b in
  let d := tl_dot BK b_f16 a in
  mkLoop
    (fun n m => add (accumulator st n m) (d n m))
    (fun kk m => a_ptrs st kk m + mul_arg stride_ak BK)
    (fun n kk => b_ptrs st n kk + mul_arg stride_bk BK)
    (a_reads st ++ block_addrs_masked BK BM (a_ptrs st) a_mask)
    (b_reads st ++ block_addrs BN BK (b_ptrs st)).

Definition loop_init (pid_m pid_n : Z) : loop_state V :=
  mkLoop (fun _ _ => zero) (a_ptrs_init pid_m) (b_ptrs_init pid_n) [] [].

Definition reduction (pid_m pid_n : Z) : loop_state V :=
  fold_left loop_body (Tl.range (cdiv_int K BK)) (loop_init pid_m pid_n).

(** Lines 149-154.  In line 152 each product is added to the pointer on its
    own. *)
Definition offs_cm (pid_m : Z) : Z -> Z := fun i => int32 (pid_m * BM + i).
Definition offs_cn (pid_n : Z) : Z -> Z := fun j => int32 (pid_n * BN + j).
Definition c_ptrs (pid_m pid_n : Z) : block Z :=
  fun n m =>
    mul_arg stride_cm (offs_cm pid_m m) + mul_arg stride_cn (offs_cn pid_n n).
Definition c_mask (pid_m pid_n : Z) : block bool :=
  fun n m => (offs_cm pid_m m <? M) && (offs_cn pid_n n <? N).

(** The output cells [(row, col)] that pass the store mask. *)
Definition store_cells (pid_m pid_n : Z) : list (Z * Z) :=
  flat_map (fun n =>
    flat_map (fun m =>
      if c_mask pid_m pid_n n m
      then [(offs_cm pid_m m, offs_cn pid_n n)] else [])
      (Tl.arange BM))
    (Tl.arange BN).

(** The instance with program id [pid]. *)
Definition matmul_kernel (pid : Z) : instance_result V :=
  if DEBUG && negb (K mod BK =? 0) then DeviceAssertFailed
  else
    let '(pid_m, pid_n) := tile_of_pid M N cfg pid in
    let st := reduction pid_m pid_n in
    let c : block V := fun n m => to_bfloat16 (accumulator st n m) in
    Finished (a_reads st) (b_reads st)
      (tl_store BN BM (c_ptrs pid_m pid_n) c (c_mask pid_m pid_n)).

(** ** Dispatch: one instance per program id in [[0, grid)] *)

Definition launch (grid_size : Z) : list (instance_result V) :=
  map matmul_kernel (Tl.range grid_size).

Definition stores_of (r : instance_result V) : list (Z * V) :=
  match r with
  | DeviceAssertFailed => []
  | Finished _ _ st => st
  end.


Definition asserted (r : instance_result V) : bool :=
  match r with
  | DeviceAssertFailed => true
  | Finished _ _ _ => false
  end.

(** Everything the instances of a launch wrote. *)
Definition launch_stores (grid_size : Z) : list (Z * V) :=
  flat_map stores_of (launch grid_size).

(** A launch fails when one of its instances hit the assertion. *)
Definition launch_failed (grid_size : Z) : bool :=
  existsb asserted (launch grid_size).

End Kernel.

(** ** Failures of host code *)

Inductive exn : Type :=
| AssertionError (msg : string)
| ValueError (msg : string)
| RuntimeError (msg : string)
| FileNotFoundError (path : string).

Definition result (A : Type) : Type := (exn + A)%type.

Definition ret {A} (x : A) : result A := inr x.
Definition raise {A} (e : exn) : result A := inl e.
Definition bind {A B} (m : result A) (k : A -> result B) : result B :=
  match m with
  | inl e => inl e
  | inr x => k x
  end.

Notation "x <- m ;; k" := (bind m (fun x => k))
  (at level 61, m at next level, right associativity).
Notation "' p <- m ;; k" := (bind m (fun x => let p := x in k))
  (at level 61, p pattern, m at next level, right associativity).

Definition py_assert (cond : bool) (msg : string) : result unit :=
  if cond then ret tt else raise (AssertionError msg).

(** ** Tensor descriptors and the host driver: [matmul], lines 158-206 *)

Record Tensor : Type := mkTensor {
  shape : list Z;
  strides : list Z
}.

(** [t.stride(i)]. *)
Definition stride (t : Tensor) (i : nat) : Z := nth i (strides t) 0.

Definition numel (t : Tensor) : Z := fold_right Z.mul 1 (shape t).

(** [t.is_contiguous()]: walking the dimensions from the innermost one, every
    dimension of size other than 1 has the stride of a dense row-major
    layout; a tensor without elements is contiguous. *)
Fixpoint contiguous_from (expected : Z) (dims : list (Z * Z)) : bool :=
  match dims with
  | [] => true
  | (size, st) :: rest =>
      if size =? 1 then contiguous_from expected rest
      else (st =? expected) && contiguous_from (expected * size) rest
  end.

Definition is_contiguous (t : Tensor) : bool :=
  (numel t =? 0) || contiguous_from 1 (rev (combine (shape t) (strides t))).

(** [torch.empty(shape)]: a fresh dense row-major tensor. *)
Fixpoint dense_strides (shp : list Z) : list Z :=
  match shp with
  | [] => []
  | _ :: rest =>
      fold_right (fun d acc => Z.max d 1 * acc) 1 rest :: dense_strides rest
  end.

Definition torch_empty (shp : list Z) : Tensor :=
  mkTensor shp (dense_strides shp).

(** [x, y = t.shape]. *)
Definition unpack_pair (shp : list Z) : result (Z * Z) :=
  match shp with
  | [x; y] => ret (x, y)
  | _ => raise (ValueError "wrong number of values to unpack")
  end.

Inductive arg : Type :=
| ArgTensor (t : Tensor)
| ArgInt (z : Z).

Inductive kernel_ref : Type :=
| Precompiled (path : string)
| Autotuned (configs : list Config) (USE_INT8_WEIGHT : bool).

(** What the driver asks of the outside world. *)
Inductive event : Type :=
| TorchEmpty (shp : list Z)
| TritonCompile (path : string)
| KernelLaunch (k : kernel_ref) (grid_dims : list Z) (args : list arg)
| FileWrite (path : string).

Definition int16_ttgir : string :=
  "/home/dberard/local/scripts/triton/int8mm/int16.ttgir".

Definition dump_path (use_int16 : bool) (ir : string) : string :=
  ("/home/dberard/local/scripts/triton/int8mm/"
     ++ (if use_int16 then "int16" else "bf16") ++ "." ++ ir)%string.

(** With a single candidate the autotuner has one configuration to give to
    the [grid] lambda. *)
Definition META : Config := hd (mkConfig 1 1 1 1 1 1) AUTOTUNE_CONFIGS.

(** The driver's own control flow: its two checks, and the operations it
    asks of the outside world, in the order of a run in which none of them
    raises, with the output it then returns.  [matmul_run] below runs this
    plan where they can raise. *)
Definition matmul (a b : Tensor) (use_int16 : bool)
  : result (list event * Tensor) :=
  _ <- py_assert (is_contiguous a) "Matrix A must be contiguous" ;;
  '(M, K) <- unpack_pair (shape a) ;;
  '(_, N) <- unpack_pair (shape b) ;;
  let c := torch_empty [M; N] in
  let run :=
    if use_int16 then
      [ TritonCompile int16_ttgir;
        KernelLaunch (Precompiled int16_ttgir)
          [Tl.cdiv M 128 * Tl.cdiv N 256; 1; 1]
          [ ArgTensor a; ArgTensor b; ArgTensor c;
            ArgInt M; ArgInt N; ArgInt K;
            ArgInt (stride a 0); ArgInt (stride b 0); ArgInt (stride c 0) ] ]
    else
      [ KernelLaunch (Autotuned AUTOTUNE_CONFIGS use_int16)
          [grid M N META]
          [ ArgTensor a; ArgTensor b; ArgTensor c;
            ArgInt M; ArgInt N; ArgInt K;
            ArgInt (stride a 0); ArgInt (stride a 1);
            ArgInt (stride b 0); ArgInt (stride b 1);
            ArgInt (stride c 0); ArgInt (stride c 1) ] ] in
  let dump :=
    if negb use_int16
    then map (fun ir => FileWrite (dump_path use_int16 ir))
           ["ttir"; "ttgir"; "llir"; "ptx"]%string
    else [] in
  ret (TorchEmpty [M; N] :: run ++ dump, c).

(** The launches of [matmul_kernel] among the events of a call, with the
    value of the [USE_INT8_WEIGHT] flag of each. *)
Definition autotuned_launches (evs : list event) : list bool :=
  flat_map (fun e =>
    match e with
    | KernelLaunch (Autotuned _ flag) _ _ => [flag]
    | _ => []
    end) evs.

(** ** A call of [matmul] in its environment

    [matmul] is the driver's own control flow: its checks, and the
    operations it asks of PyTorch, Triton and the file system, in the order
    of a run in which none of them raises.  Each of these operations can
    raise (the output cannot be allocated, the precompiled kernel or the
    directory of the dumps does not exist, the launch is refused), and the
    exception ends the call there.  The environment says which operation
    raises what. *)

Definition environment : Type := event -> option exn.

(** The operations performed, up to and including the first that raises. *)
Fixpoint run_events (env : environment) (evs : list event)
  : list event * option exn :=
  match evs with
  | [] => ([], None)
  | e :: rest =>
      match env e with
      | Some x => ([e], Some x)
      | None =>
          let '(done, r) := run_events env rest in (e :: done, r)
      end
  end.

Definition matmul_run (env : environment) (a b : Tensor) (use_int16 : bool)
  : list event * result Tensor :=
  match matmul a b use_int16 with
  | inl e => ([], inl e)
  | inr (evs, c) =>
      let '(done, r) := run_events env evs in
      (done, match r with Some x => inl x | None => inr c end)
  end.

(** The environment in which every operation succeeds. *)
Definition all_succeed : environment := fun _ => None.

(** The environment of a machine without the directory of the dumps:
    [open] raises there, everything else succeeds. *)
Definition missing_dump_directory : environment :=
  fun e =>
    match e with
    | FileWrite path => Some (FileNotFoundError path)
    | _ => None
    end.

(** ** Signed 8-bit elements *)

(** [.to(torch.int8)] on an integer value, and the wrap-around of int8
    arithmetic. *)
Definition to_int8 (z : Z) : Z := (z + 128) mod 256 - 128.

(** The byte of an int8 value, as an unsigned number. *)
Definition byte_of (z : Z) : Z := z mod 256.

(** ** Weight packer: [pack_2xint4], lines 209-212 *)

Definition matrix : Type := list (list Z).

Definition shape0 (t : matrix) : nat := length t.
Definition shape1 (t : matrix) : nat :=
  match t with
  | [] => O
  | r :: _ => length r
  end.

Fixpoint chunks {A} (count size : nat) (l : list A) : list (list A) :=
  match count with
  | O => []
  | S c => firstn size l :: chunks c size (skipn size l)
  end.

(** [t.reshape(d0, d1, d2)] of a dense matrix: the row-major elements are
    regrouped; the element counts must agree. *)
Definition reshape3 (d0 d1 d2 : nat) (t : matrix)
  : result (list (list (list Z))) :=
  let flat := concat t in
  if (length flat =? d0 * d1 * d2)%nat
  then ret (chunks d0 d1 (chunks (d0 * d1) d2 flat))
  else raise (RuntimeError "shape is invalid for input size").

(** [t.permute(1, 0, 2)] of a tensor whose dimension 1 has size [d1]. *)
Definition permute_102 (d1 : nat) (t : list (list (list Z)))
  : list (list (list Z)) :=
  map (fun j => map (fun grp => nth j grp []) t) (seq 0 d1).

Fixpoint map2 {A B C} (f : A -> B -> C) (l : list A) (l' : list B) : list C :=
  match l, l' with
  | x :: r, y :: r' => f x y :: map2 f r r'
  | _, _ => []
  end.

Definition pack_2xint4 (t : matrix) : result matrix :=
  let t8 := map (map to_int8) t in
  t3 <- reshape3 (shape0 t / 2) 2 (shape1 t) t8 ;;
  let tp := permute_102 2 t3 in
  let t0 := nth 0 tp [] in
  let t1 := nth 1 tp [] in
  ret (map2 (map2 Z.lor)
         (map (map (fun x => Z.land x 15)) t0)
         (map (map (fun y => to_int8 (Z.shiftl y 4))) t1)).

(** The 4-bit two's-complement value that a packed lane keeps of an
    integer. *)
Definition to_int4 (z : Z) : Z := (z + 8) mod 16 - 8.

(** Following the specification's words (section 4.1): consecutive rows along
    K are paired; the low nibble is element 0 masked to 4 bits, the high
    nibble is element 1 shifted left 4 bits, and the two are combined with a
    bitwise OR. *)
Fixpoint pack_spec (W : matrix) : matrix :=
  match W with
  | element0 :: element1 :: rest =>
      map2 (fun x y => Z.lor (Z.land x 15) (Z.shiftl y 4)) element0 element1
        :: pack_spec rest
  | _ => []
  end.

(** [W[i][j]]. *)
Definition entry (W : matrix) (i j : nat) : Z := nth j (nth i W []) 0.

(** ** The unpacking block of [matmul_kernel], lines 119-135

    The block is present in the kernel as a string literal, so it does not
    run.  It is transcribed here because it is the inverse of
    [pack_2xint4]. *)

(** [b_lo = (b << _4_i8) >> _4_i8] on int8. *)
Definition nibble_lo (b : Z) : Z := Z.shiftr (to_int8 (Z.shiftl b 4)) 4.

(** [b_hi = b >> _4_i8] on int8. *)
Definition nibble_hi (b : Z) : Z := Z.shiftr b 4.

(** [tl.join(b_lo, b_hi).permute(0, 2, 1).reshape(BLOCK_SIZE_K, BLOCK_SIZE_N)]
    on a block of shape [[BLOCK_SIZE_K // 2, BLOCK_SIZE_N]]. *)
Definition unpack_2xint4 (b : matrix) : matrix :=
  let joined := map (map (fun x => (nibble_lo x, nibble_hi x))) b in
  let permuted := map (fun row => [map fst row; map snd row]) joined in
  concat permuted.

(** ** Values of the weight operand

    For integer-valued operands, [.to(tl.bfloat16)] rounds to the eight
    significant bits of the format, to nearest, ties to even. *)
Definition bfloat16_of_Z (z : Z) : Z :=
  let n := Z.log2 (Z.abs z) in
  if n <? 8 then z
  else
    let sh := n - 7 in
    let q := Z.shiftr (Z.abs z) sh in
    let r := Z.land (Z.abs z) (Z.ones sh) in
    let half := Z.shiftl 1 (sh - 1) in
    let q' := if (half <? r) || ((r =? half) && Z.odd q) then q + 1 else q in
    Z.sgn z * Z.shiftl q' sh.

(** The dequantization of the kernel on integer-valued weights. *)
Definition kernel_dequantize (USE_INT8_WEIGHT : bool) (b : block Z) : block Z :=
  dequantize Z bfloat16_of_Z USE_INT8_WEIGHT b.

(** Following the specification's words (step 3c for packed mode): each byte
    gives a low lane, by shifting left by [width - 4] bits and arithmetically
    right by the same amount, and a high lane, by shifting right by 4; both
    lanes are widened and interleaved along K, so that lane [k] of the result
    comes from byte [k / 2]. *)
Definition packed_dequantize_spec (b : block Z) : block Z :=
  fun n k =>
    let byte := b n (k / 2) in
    let width := 8 in
    let lo := Z.shiftr (to_int8 (Z.shiftl byte (width - 4))) (width - 4) in
    let hi := Z.shiftr byte 4 in
    bfloat16_of_Z (if Z.even k then lo else hi).

(** ** The matrices of the packing scenario *)

Definition scenario_W : matrix := [[1; -2]; [3; -4]; [5; -6]; [7; -8]].

(** ** Facts about [cdiv], [arange] *)

Lemma cdiv_nonneg x d : 0 <= x -> 0 < d -> 0 <= Tl.cdiv x d.
Proof.
  intros Hx Hd. unfold Tl.cdiv. apply Z.div_pos; lia.
Qed.

Lemma cdiv_covers x d : 0 <= x -> 0 < d -> x <= Tl.cdiv x d * d < x + d.
Proof.
  intros Hx Hd. unfold Tl.cdiv.
  pose proof (Z.div_mod (x + d - 1) d ltac:(lia)) as E.
  pose proof (Z.mod_pos_bound (x + d - 1) d Hd) as B.
  nia.
Qed.


Lemma in_arange n i : In i (Tl.arange n) <-> 0 <= i < n.
Proof.
  unfold Tl.arange. rewrite in_map_iff. split.
  - intros [k [<- Hk]]. apply in_seq in Hk. lia.
  - intros Hi. exists (Z.to_nat i). split; [lia|]. apply in_seq. lia.
Qed.

Lemma length_arange n : Z.of_nat (length (Tl.arange n)) = Z.max 0 n.
Proof.
  unfold Tl.arange. rewrite length_map, length_seq. lia.
Qed.

(** ** The grouped mapping is a bijection *)

Section Grouped.

Variables numM numN G : Z.
Hypothesis HG : 0 < G.
Hypothesis HM : 0 <= numM.
Hypothesis HN : 0 <= numN.

Let tile := grouped_tile numM numN G.

(** Decomposition of an id inside the grid: its group, the group's first
    row tile, the group's height and the rank inside the group. *)
Lemma pid_decompose pid :
  0 <= pid < numM * numN ->
  let g := pid / (G * numN) in
  let r := pid mod (G * numN) in
  let h := Z.min (numM - g * G) G in
  0 < numN /\ 0 <= g /\ g * G < numM /\ 0 < h <= G /\
  pid = g * (G * numN) + r /\ 0 <= r < h * numN.
Proof.
  intros Hp g r h.
  assert (HnN : 0 < numN) by nia.
  assert (HP : 0 < G * numN) by nia.
  pose proof (Z.div_mod pid (G * numN) ltac:(lia)) as E.
  pose proof (Z.mod_pos_bound pid (G * numN) HP) as B.
  fold g r in E, B.
  assert (Hg : 0 <= g) by (apply Z.div_pos; lia).
  assert (HgM : g * G < numM) by nia.
  assert (Hh : 0 < h <= G) by (unfold h; lia).
  repeat split; try lia;
    unfold h; destruct (Z.min_spec (numM - g * G) G) as [[_ ->]|[_ ->]]; nia.
Qed.

Lemma grouped_tile_in_range pid :
  0 <= pid < numM * numN ->
  0 <= fst (tile pid) < numM /\ 0 <= snd (tile pid) < numN.
Proof.
  intros Hp.
  destruct (pid_decompose pid Hp) as (HnN & Hg & HgM & Hh & E & Hr).
  unfold tile, grouped_tile; cbn [fst snd].
  set (g := pid / (G * numN)) in *.
  set (r := pid mod (G * numN)) in *.
  set (h := Z.min (numM - g * G) G) in *.
  pose proof (Z.mod_pos_bound pid h ltac:(lia)) as Bm.
  assert (Hhm : h <= numM - g * G) by (unfold h; lia).
  split; [lia|].
  split.
  - apply Z.div_pos; lia.
  - apply Z.div_lt_upper_bound; lia.
Qed.

(** The row tile determines the group. *)
Lemma grouped_tile_group pid :
  0 <= pid < numM * numN ->
  fst (tile pid) / G = pid / (G * numN).
Proof.
  intros Hp.
  destruct (pid_decompose pid Hp) as (HnN & Hg & HgM & Hh & E & Hr).
  unfold tile, grouped_tile; cbn [fst].
  set (g := pid / (G * numN)) in *.
  set (h := Z.min (numM - g * G) G) in *.
  pose proof (Z.mod_pos_bound pid h ltac:(lia)) as Bm.
  symmetry. apply (Z.div_unique _ _ _ (pid mod h)); lia.
Qed.

Lemma grouped_tile_injective p q :
  0 <= p < numM * numN -> 0 <= q < numM * numN ->
  tile p = tile q -> p = q.
Proof.
  intros Hp Hq Heq.
  pose proof (grouped_tile_group p Hp) as Gp.
  pose proof (grouped_tile_group q Hq) as Gq.
  rewrite Heq, Gq in Gp.
  destruct (pid_decompose p Hp) as (HnN & Hg & HgM & Hh & Ep & Hrp).
  destruct (pid_decompose q Hq) as (_ & _ & _ & _ & Eq & Hrq).
  unfold tile, grouped_tile in Heq.
  rewrite <- Gp in *.
  set (g := q / (G * numN)) in *.
  set (h := Z.min (numM - g * G) G) in *.
  set (rp := p mod (G * numN)) in *.
  set (rq := q mod (G * numN)) in *.
  injection Heq as Hm Hn.
  assert (Hmod : p mod h = q mod h) by lia.
  (* both ranks have the same quotient and, up to the common shift
     g * (G * numN), the same remainder by h *)
  pose proof (Z.div_mod rp h ltac:(lia)) as Dp.
  pose proof (Z.div_mod rq h ltac:(lia)) as Dq.
  pose proof (Z.mod_pos_bound rp h ltac:(lia)) as Bp.
  pose proof (Z.mod_pos_bound rq h ltac:(lia)) as Bq.
  assert (Hsub : (p - q) mod h = 0).
  { rewrite Zminus_mod, Hmod, Z.sub_diag. apply Z.mod_0_l. lia. }
  assert (Hd : p - q = rp mod h - rq mod h) by lia.
  rewrite Hd in Hsub.
  assert (rp mod h = rq mod h).
  { destruct (Z.eq_dec (rp mod h) (rq mod h)) as [|Hne]; [assumption|].
    exfalso.
    destruct (Z.lt_ge_cases (rq mod h) (rp mod h)).
    - rewrite Z.mod_small in Hsub by lia. lia.
    - assert (Ho : (rq mod h - rp mod h) mod h = 0).
      { replace (rq mod h - rp mod h) with (- (rp mod h - rq mod h)) by lia.
        apply Z.mod_opp_l_z; [lia|assumption]. }
      rewrite Z.mod_small in Ho by lia. lia. }
  lia.
Qed.

Lemma grouped_pid_in_range m n :
  0 <= m < numM -> 0 <= n < numN ->
  0 <= grouped_pid numM numN G m n < numM * numN /\
  grouped_pid numM numN G m n / (G * numN) = m / G.
Proof.
  intros Hm Hn. unfold grouped_pid.
  set (g := m / G). set (h := Z.min (numM - g * G) G).
  set (c := g * (G * numN)).
  pose proof (Z.div_mod m G ltac:(lia)) as E.
  pose proof (Z.mod_pos_bound m G HG) as B. fold g in E.
  assert (Hg : 0 <= g) by (apply Z.div_pos; lia).
  assert (Hh : 0 < h <= G) by (unfold h; lia).
  assert (Hhm : h <= numM - g * G) by (unfold h; lia).
  pose proof (Z.mod_pos_bound (m - g * G - c) h ltac:(lia)) as Bs.
  set (s := (m - g * G - c) mod h) in *.
  assert (Hr : 0 <= n * h + s < h * numN) by nia.
  assert (Hr' : n * h + s < G * numN) by nia.
  split.
  - unfold c. nia.
  - symmetry. apply (Z.div_unique _ _ _ (n * h + s)); unfold c; lia.
Qed.

Lemma grouped_tile_pid m n :
  0 <= m < numM -> 0 <= n < numN ->
  tile (grouped_pid numM numN G m n) = (m, n).
Proof.
  intros Hm Hn.
  destruct (grouped_pid_in_range m n Hm Hn) as [Hr Hgrp].
  unfold tile, grouped_tile. rewrite Hgrp.
  unfold grouped_pid in *.
  set (g := m / G) in *. set (h := Z.min (numM - g * G) G) in *.
  set (c := g * (G * numN)) in *.
  pose proof (Z.div_mod m G ltac:(lia)) as E.
  pose proof (Z.mod_pos_bound m G HG) as B. fold g in E.
  assert (Hg : 0 <= g) by (apply Z.div_pos; lia).
  assert (Hh : 0 < h <= G) by (unfold h; lia).
  assert (Hhm : h <= numM - g * G) by (unfold h; lia).
  pose proof (Z.mod_pos_bound (m - g * G - c) h ltac:(lia)) as Bs.
  set (s := (m - g * G - c) mod h) in *.
  assert (Hrk : 0 <= n * h + s < G * numN) by nia.
  assert (Hrem : (c + n * h + s) mod (G * numN) = n * h + s).
  { symmetry. apply (Z.mod_unique _ _ g); unfold c; lia. }
  rewrite Hrem.
  assert (Hq : (n * h + s) / h = n).
  { symmetry. apply (Z.div_unique _ _ _ s); lia. }
  rewrite Hq. f_equal.
  (* (c + n*h + s) mod h = (c + s) mod h = (m - g*G) mod h = m - g*G *)
  assert (Hoff : 0 <= m - g * G < h).
  { unfold h. destruct (Z.min_spec (numM - g * G) G) as [[_ ->]|[_ ->]]; lia. }
  replace (c + n * h + s) with ((c + s) + n * h) by lia.
  rewrite Z.mod_add by lia.
  unfold s. rewrite Zplus_mod_idemp_r.
  replace (c + (m - g * G - c)) with (m - g * G) by lia.
  rewrite Z.mod_small by lia. lia.
Qed.

End Grouped.

(** The grouped-mapping scenario: with 10 row tiles, 4 column tiles and groups
    of 3, the first 12 ids stay in row tiles 0..2 and the next one moves to
    row tile 3. *)
Example grouped_scenario :
  forallb (fun pid => fst (grouped_tile 10 4 3 pid) <? 3) (Tl.arange 12) = true
  /\ grouped_tile 10 4 3 12 = (3, 0)
  /\ grouped_tile 10 4 3 39 = (9, 3).
Proof. repeat split; reflexivity. Qed.

(** C2. For every number of row tiles and column tiles (the values of
    [ceil(M / BLOCK_M)] and [ceil(N / BLOCK_N)]) and every group size
    [GROUP_M > 0], the grouped mapping sends the ids of
    [[0, numTilesM * numTilesN)] into [[0, numTilesM) x [0, numTilesN)],
    sends no two ids to the same tile and reaches every tile, also when
    the last group is short. *)
Theorem grouped_mapping_bijection (numTilesM numTilesN GROUP_M : Z) :
  0 <= numTilesM -> 0 <= numTilesN -> 0 < GROUP_M ->
  let tile := grouped_tile numTilesM numTilesN GROUP_M in
  (forall pid, 0 <= pid < numTilesM * numTilesN ->
     0 <= fst (tile pid) < numTilesM /\ 0 <= snd (tile pid) < numTilesN)
  /\ (forall p q, 0 <= p < numTilesM * numTilesN ->
        0 <= q < numTilesM * numTilesN -> tile p = tile q -> p = q)
  /\ (forall m n, 0 <= m < numTilesM -> 0 <= n < numTilesN ->
        exists pid, 0 <= pid < numTilesM * numTilesN /\ tile pid = (m, n)).
Proof.
  intros HM HN HG tile. split; [|split].
  - intros pid Hp. now apply grouped_tile_in_range.
  - intros p q Hp Hq. now apply grouped_tile_injective.
  - intros m n Hm Hn. exists (grouped_pid numTilesM numTilesN GROUP_M m n).
    split.
    + now apply grouped_pid_in_range.
    + now apply grouped_tile_pid.
Qed.

(** The mapping of the kernel for a 17 x 5 output in 16 x 128 blocks, whose
    only group is short. *)
Lemma grouped_mapping_bijection_witness :
  let tile := grouped_tile (Tl.cdiv 17 16) (Tl.cdiv 5 128) 8 in
  (forall pid, 0 <= pid < Tl.cdiv 17 16 * Tl.cdiv 5 128 ->
     0 <= fst (tile pid) < Tl.cdiv 17 16 /\ 0 <= snd (tile pid) < Tl.cdiv 5 128)
  /\ (forall p q, 0 <= p < Tl.cdiv 17 16 * Tl.cdiv 5 128 ->
        0 <= q < Tl.cdiv 17 16 * Tl.cdiv 5 128 -> tile p = tile q -> p = q)
  /\ (forall m n, 0 <= m < Tl.cdiv 17 16 -> 0 <= n < Tl.cdiv 5 128 ->
        exists pid, 0 <= pid < Tl.cdiv 17 16 * Tl.cdiv 5 128 /\ tile pid = (m, n)).
Proof.
  apply (grouped_mapping_bijection (Tl.cdiv 17 16) (Tl.cdiv 5 128) 8);
    vm_compute; congruence.
Defined.

(** ** Facts about blocks and their memory accesses *)

Lemma arange_to_nat z : Tl.arange z = Tl.arange (Z.of_nat (Z.to_nat z)).
Proof. unfold Tl.arange. now rewrite Nat2Z.id. Qed.

Lemma arange_S (n : nat) :
  Tl.arange (Z.of_nat (S n)) = Tl.arange (Z.of_nat n) ++ [Z.of_nat n].
Proof.
  unfold Tl.arange. rewrite !Nat2Z.id, seq_S, map_app. reflexivity.
Qed.

Lemma length_flat_map_const {A B} (f : A -> list B) (c : nat) (l : list A) :
  (forall x, In x l -> length (f x) = c) ->
  length (flat_map f l) = (length l * c)%nat.
Proof.
  induction l as [|x l IH]; intros Hc; simpl; [reflexivity|].
  rewrite length_app, Hc by now left.
  rewrite IH by (intros y Hy; apply Hc; now right). reflexivity.
Qed.

Lemma map_flat_map {A B C} (f : B -> C) (g : A -> list B) (l : list A) :
  map f (flat_map g l) = flat_map (fun x => map f (g x)) l.
Proof.
  induction l as [|x l IH]; simpl; [reflexivity|].
  now rewrite map_app, IH.
Qed.

Lemma in_block_addrs d0 d1 ptrs addr :
  In addr (block_addrs d0 d1 ptrs) <->
  exists i j, 0 <= i < d0 /\ 0 <= j < d1 /\ addr = ptrs i j.
Proof.
  unfold block_addrs. rewrite in_flat_map. split.
  - intros (i & Hi & Hin). apply in_map_iff in Hin as (j & <- & Hj).
    exists i, j. rewrite in_arange in Hi, Hj. auto.
  - intros (i & j & Hi & Hj & ->). exists i. split; [now apply in_arange|].
    apply in_map_iff. exists j. split; [reflexivity|now apply in_arange].
Qed.

Lemma block_addrs_ext d0 d1 (p q : block Z) :
  (forall i j, p i j = q i j) -> block_addrs d0 d1 p = block_addrs d0 d1 q.
Proof.
  intros E. unfold block_addrs. apply flat_map_ext. intros i.
  apply map_ext. intros j. apply E.
Qed.

Lemma length_block_addrs d0 d1 ptrs :
  Z.of_nat (length (block_addrs d0 d1 ptrs)) = Z.max 0 d0 * Z.max 0 d1.
Proof.
  unfold block_addrs.
  rewrite (length_flat_map_const _ (length (Tl.arange d1))).
  - rewrite Nat2Z.inj_mul, !length_arange. reflexivity.
  - intros i _. apply length_map.
Qed.

Lemma in_tl_store {V} d0 d1 ptrs (vals : block V) mask addr v :
  In (addr, v) (tl_store d0 d1 ptrs vals mask) <->
  exists i j, 0 <= i < d0 /\ 0 <= j < d1 /\ mask i j = true /\
              addr = ptrs i j /\ v = vals i j.
Proof.
  unfold tl_store. rewrite in_flat_map. split.
  - intros (i & Hi & Hin). apply in_flat_map in Hin as (j & Hj & Hin).
    rewrite in_arange in Hi, Hj.
    destruct (mask i j) eqn:Em; [|contradiction].
    destruct Hin as [E|[]]. injection E as <- <-.
    exists i, j. auto.
  - intros (i & j & Hi & Hj & Em & -> & ->).
    exists i. split; [now apply in_arange|].
    apply in_flat_map. exists j. split; [now apply in_arange|].
    rewrite Em. now left.
Qed.

Lemma in_block_addrs_masked d0 d1 ptrs mask addr :
  In addr (block_addrs_masked d0 d1 ptrs mask) <->
  exists i j, 0 <= i < d0 /\ 0 <= j < d1 /\ mask i j = true /\
              addr = ptrs i j.
Proof.
  unfold block_addrs_masked. rewrite in_flat_map. split.
  - intros (i & Hi & Hin). apply in_flat_map in Hin as (j & Hj & Hin).
    rewrite in_arange in Hi, Hj.
    destruct (mask i j) eqn:Em; [|contradiction].
    destruct Hin as [<-|[]]. exists i, j. auto.
  - intros (i & j & Hi & Hj & Em & ->).
    exists i. split; [now apply in_arange|].
    apply in_flat_map. exists j. split; [now apply in_arange|].
    rewrite Em. now left.
Qed.

Lemma flat_map_map_l {A B C} (f : B -> list C) (g : A -> B) (l : list A) :
  flat_map f (map g l) = flat_map (fun x => f (g x)) l.
Proof.
  induction l as [|x l IH]; simpl; [reflexivity|]. now rewrite IH.
Qed.

Lemma flat_map_ext_In {A B} (f g : A -> list B) (l : list A) :
  (forall x, In x l -> f x = g x) -> flat_map f l = flat_map g l.
Proof.
  induction l as [|x l IH]; intros E; simpl; [reflexivity|].
  rewrite (E x) by now left. rewrite IH; [reflexivity|].
  intros y Hy. apply E. now right.
Qed.


(** ** Machine integers within their range *)

Lemma wrap_small bits z :
  bits = 32 \/ bits = 64 -> - 2 ^ 31 <= z < 2 ^ 31 -> wrap bits z = z.
Proof.
  change (2 ^ 31) with 2147483648.
  intros [-> | ->] Hz; unfold wrap; cbv zeta;
    rewrite Z.land_ones, Z.shiftl_1_l by lia.
  - change (2 ^ (32 - 1)) with 2147483648.
    change (2 ^ 32) with 4294967296.
    rewrite Z.mod_small; lia.
  - change (2 ^ (64 - 1)) with 9223372036854775808.
    change (2 ^ 64) with 18446744073709551616.
    rewrite Z.mod_small; lia.
Qed.

(** [wrap] is the wrap-around modulo [2 ^ bits]. *)
Lemma wrap_mod bits z :
  0 < bits ->
  wrap bits z = (z + 2 ^ (bits - 1)) mod 2 ^ bits - 2 ^ (bits - 1).
Proof.
  intros Hb. unfold wrap. cbv zeta.
  now rewrite Z.land_ones, Z.shiftl_1_l by lia.
Qed.

Lemma arg_bits_cases v : arg_bits v = 32 \/ arg_bits v = 64.
Proof. unfold arg_bits. destruct (_ && _); auto. Qed.

Lemma int32_small z : - 2 ^ 31 <= z < 2 ^ 31 -> int32 z = z.
Proof. intros Hz. apply wrap_small; auto. Qed.

Lemma mul_arg_small arg x :
  - 2 ^ 31 <= arg * x < 2 ^ 31 -> mul_arg arg x = arg * x.
Proof. intros Hz. apply wrap_small; [apply arg_bits_cases|exact Hz]. Qed.

Lemma add_args_small arg1 arg2 x y :
  - 2 ^ 31 <= x + y < 2 ^ 31 -> add_args arg1 arg2 x y = x + y.
Proof.
  intros Hz. apply wrap_small; [|exact Hz].
  destruct (arg_bits_cases arg1) as [-> | ->];
    destruct (arg_bits_cases arg2) as [-> | ->]; auto.
Qed.

Lemma wrap_range bits z :
  0 < bits -> - 2 ^ (bits - 1) <= wrap bits z < 2 ^ (bits - 1).
Proof.
  intros Hb. rewrite wrap_mod by assumption.
  assert (E : 2 ^ bits = 2 * 2 ^ (bits - 1)).
  { replace bits with (Z.succ (bits - 1)) at 1 by lia.
    apply Z.pow_succ_r. lia. }
  assert (Hp : 0 < 2 ^ (bits - 1)) by (apply Z.pow_pos_nonneg; lia).
  pose proof (Z.mod_pos_bound (z + 2 ^ (bits - 1)) (2 ^ bits)) as B. lia.
Qed.

Lemma cdiv_int_small x d :
  0 <= x -> 0 < d -> x + d <= 2 ^ 31 -> cdiv_int x d = Tl.cdiv x d.
Proof.
  intros Hx Hd Hb. unfold cdiv_int, Tl.cdiv.
  rewrite wrap_small.
  - apply Z.quot_div_nonneg; lia.
  - apply arg_bits_cases.
  - change (2 ^ 31) with 2147483648 in *. lia.
Qed.

Lemma quot_below w d : - d < w < d -> Z.quot w d = 0.
Proof.
  intros H. destruct (Z_le_gt_dec 0 w) as [Hw|Hw].
  - apply Z.quot_small. lia.
  - replace w with (- - w) by lia. rewrite Z.quot_opp_l by lia.
    rewrite Z.quot_small; lia.
Qed.

(** On an empty dimension the kernel's [tl.cdiv] is zero, whatever the block
    size. *)
Lemma cdiv_int_zero d : 0 < d -> cdiv_int 0 d = 0.
Proof.
  intros Hd. unfold cdiv_int.
  change (arg_bits 0) with 32.
  destruct (Z_le_gt_dec d (2 ^ 31)) as [Hs|Hl].
  - rewrite wrap_small; auto.
    + apply Z.quot_small. lia.
    + change (2 ^ 31) with 2147483648 in *. lia.
  - apply quot_below.
    pose proof (wrap_range 32 (0 + d - 1) ltac:(lia)) as R.
    change (2 ^ (32 - 1)) with (2 ^ 31) in R. lia.
Qed.

(** A product of a non-negative stride with an index below the extent. *)
Lemma mul_arg_index stride extent i :
  0 <= stride -> 0 <= i < extent -> extent * stride <= 2 ^ 31 ->
  mul_arg stride i = stride * i.
Proof.
  intros Hs Hi He. apply mul_arg_small.
  change (2 ^ 31) with 2147483648 in *. nia.
Qed.

(** ** Offsets of a tile within the 32-bit range *)

Lemma tile_offset_fits x d pid_x :
  0 <= x -> 0 < d -> 0 <= pid_x < Tl.cdiv x d -> x + d <= 2 ^ 31 ->
  0 <= pid_x * d /\ pid_x * d + d <= 2 ^ 31.
Proof.
  intros Hx Hd Hp Hb. pose proof (cdiv_covers x d Hx Hd) as C.
  change (2 ^ 31) with 2147483648 in *. nia.
Qed.

Lemma offs_cm_small cfg pid_m m :
  0 <= pid_m * BLOCK_SIZE_M cfg ->
  pid_m * BLOCK_SIZE_M cfg + BLOCK_SIZE_M cfg <= 2 ^ 31 ->
  0 <= m < BLOCK_SIZE_M cfg ->
  offs_cm cfg pid_m m = pid_m * BLOCK_SIZE_M cfg + m.
Proof.
  intros H0 H1 Hm. unfold offs_cm. apply int32_small.
  change (2 ^ 31) with 2147483648 in *. lia.
Qed.

Lemma offs_cn_small cfg pid_n n :
  0 <= pid_n * BLOCK_SIZE_N cfg ->
  pid_n * BLOCK_SIZE_N cfg + BLOCK_SIZE_N cfg <= 2 ^ 31 ->
  0 <= n < BLOCK_SIZE_N cfg ->
  offs_cn cfg pid_n n = pid_n * BLOCK_SIZE_N cfg + n.
Proof.
  intros H0 H1 Hn. unfold offs_cn. apply int32_small.
  change (2 ^ 31) with 2147483648 in *. lia.
Qed.

Lemma offs_am_small M cfg pid_m m :
  0 < M ->
  0 <= pid_m * BLOCK_SIZE_M cfg ->
  pid_m * BLOCK_SIZE_M cfg + BLOCK_SIZE_M cfg <= 2 ^ 31 ->
  0 <= m < BLOCK_SIZE_M cfg ->
  offs_am M cfg pid_m m = (pid_m * BLOCK_SIZE_M cfg + m) mod M.
Proof.
  intros HM H0 H1 Hm. unfold offs_am. rewrite int32_small.
  - apply Z.rem_mod_nonneg; lia.
  - change (2 ^ 31) with 2147483648 in *. lia.
Qed.

Lemma offs_bn_small N cfg pid_n n :
  0 < N ->
  0 <= pid_n * BLOCK_SIZE_N cfg ->
  pid_n * BLOCK_SIZE_N cfg + BLOCK_SIZE_N cfg <= 2 ^ 31 ->
  0 <= n < BLOCK_SIZE_N cfg ->
  offs_bn N cfg pid_n n = (pid_n * BLOCK_SIZE_N cfg + n) mod N.
Proof.
  intros HN H0 H1 Hn. unfold offs_bn. rewrite int32_small.
  - apply Z.rem_mod_nonneg; lia.
  - change (2 ^ 31) with 2147483648 in *. lia.
Qed.

Lemma tile_of_pid_small M N cfg pid :
  0 <= M -> 0 <= N -> 0 < BLOCK_SIZE_M cfg -> 0 < BLOCK_SIZE_N cfg ->
  M + BLOCK_SIZE_M cfg <= 2 ^ 31 -> N + BLOCK_SIZE_N cfg <= 2 ^ 31 ->
  tile_of_pid M N cfg pid =
  grouped_tile (Tl.cdiv M (BLOCK_SIZE_M cfg)) (Tl.cdiv N (BLOCK_SIZE_N cfg))
    (GROUP_SIZE_M cfg) pid.
Proof.
  intros. unfold tile_of_pid. now rewrite !cdiv_int_small.
Qed.

(** ** The cells of a store *)

Lemma in_store_cells M N cfg pid_m pid_n row col :
  0 <= pid_m * BLOCK_SIZE_M cfg ->
  pid_m * BLOCK_SIZE_M cfg + BLOCK_SIZE_M cfg <= 2 ^ 31 ->
  0 <= pid_n * BLOCK_SIZE_N cfg ->
  pid_n * BLOCK_SIZE_N cfg + BLOCK_SIZE_N cfg <= 2 ^ 31 ->
  In (row, col) (store_cells M N cfg pid_m pid_n) <->
  pid_m * BLOCK_SIZE_M cfg <= row < pid_m * BLOCK_SIZE_M cfg + BLOCK_SIZE_M cfg
  /\ pid_n * BLOCK_SIZE_N cfg <= col < pid_n * BLOCK_SIZE_N cfg + BLOCK_SIZE_N cfg
  /\ row < M /\ col < N.
Proof.
  intros Hm0 Hm1 Hn0 Hn1.
  unfold store_cells, c_mask. rewrite in_flat_map. split.
  - intros (n & Hn & Hin). apply in_flat_map in Hin as (m & Hm & Hin).
    rewrite in_arange in Hn, Hm.
    rewrite (offs_cm_small cfg pid_m m), (offs_cn_small cfg pid_n n) in Hin
      by assumption.
    destruct (_ && _) eqn:Em; [|contradiction].
    destruct Hin as [E|[]]. injection E as <- <-.
    apply andb_prop in Em as [E1 E2]. lia.
  - intros (Hr & Hc & HrM & HcN).
    exists (col - pid_n * BLOCK_SIZE_N cfg). split; [apply in_arange; lia|].
    apply in_flat_map. exists (row - pid_m * BLOCK_SIZE_M cfg).
    split; [apply in_arange; lia|].
    rewrite offs_cm_small, offs_cn_small by lia.
    replace (pid_m * BLOCK_SIZE_M cfg + (row - pid_m * BLOCK_SIZE_M cfg))
      with row by lia.
    replace (pid_n * BLOCK_SIZE_N cfg + (col - pid_n * BLOCK_SIZE_N cfg))
      with col by lia.
    replace (row <? M) with true by (symmetry; apply Z.ltb_lt; lia).
    replace (col <? N) with true by (symmetry; apply Z.ltb_lt; lia).
    now left.
Qed.

(** The addresses of a masked store are the addresses of the cells that pass
    the mask. *)
Lemma tl_store_cells {V} M N stride_cm stride_cn cfg pid_m pid_n (c : block V) :
  map fst (tl_store (BLOCK_SIZE_N cfg) (BLOCK_SIZE_M cfg)
             (c_ptrs stride_cm stride_cn cfg pid_m pid_n) c
             (c_mask M N cfg pid_m pid_n)) =
  map (fun cell => mul_arg stride_cm (fst cell) + mul_arg stride_cn (snd cell))
      (store_cells M N cfg pid_m pid_n).
Proof.
  unfold tl_store, store_cells.
  rewrite !map_flat_map. apply flat_map_ext. intros n.
  rewrite !map_flat_map. apply flat_map_ext. intros m.
  destruct (c_mask M N cfg pid_m pid_n n m); reflexivity.
Qed.

(** ** Lists without repetition *)

Lemma NoDup_arange n : NoDup (Tl.arange n).
Proof.
  unfold Tl.arange. apply NoDup_map_NoDup_ForallPairs.
  - intros x y _ _ E. lia.
  - apply seq_NoDup.
Qed.

Lemma NoDup_flat_map_disjoint {A B} (f : A -> list B) (l : list A) :
  NoDup l ->
  (forall x, In x l -> NoDup (f x)) ->
  (forall x y b, In x l -> In y l -> In b (f x) -> In b (f y) -> x = y) ->
  NoDup (flat_map f l).
Proof.
  induction 1 as [|x l Hx Hl IH]; intros Hf Hd; simpl; [constructor|].
  apply NoDup_app.
  - apply Hf. now left.
  - apply IH.
    + intros y Hy. apply Hf. now right.
    + intros y z b Hy Hz. apply Hd; now right.
  - intros b Hb Hb'. apply in_flat_map in Hb' as (y & Hy & Hby).
    assert (x = y)
      by (apply (Hd x y b); [now left|now right|assumption|assumption]).
    subst. contradiction.
Qed.

(** A list without repetition that holds exactly the integers of
    [[0, n)] has [n] elements. *)
Lemma NoDup_range_length (l : list Z) (n : Z) :
  NoDup l -> (forall x, In x l <-> 0 <= x < n) ->
  Z.of_nat (length l) = Z.max 0 n.
Proof.
  intros Hnd Hin. rewrite <- length_arange. f_equal.
  apply Nat.le_antisymm; apply NoDup_incl_length;
    auto using NoDup_arange; intros x Hx.
  - apply in_arange, Hin, Hx.
  - apply Hin, in_arange, Hx.
Qed.

Lemma NoDup_store_cells M N cfg pid_m pid_n :
  0 <= pid_m * BLOCK_SIZE_M cfg ->
  pid_m * BLOCK_SIZE_M cfg + BLOCK_SIZE_M cfg <= 2 ^ 31 ->
  0 <= pid_n * BLOCK_SIZE_N cfg ->
  pid_n * BLOCK_SIZE_N cfg + BLOCK_SIZE_N cfg <= 2 ^ 31 ->
  NoDup (store_cells M N cfg pid_m pid_n).
Proof.
  intros Hm0 Hm1 Hn0 Hn1.
  unfold store_cells. apply NoDup_flat_map_disjoint.
  - apply NoDup_arange.
  - intros n _. apply NoDup_flat_map_disjoint.
    + apply NoDup_arange.
    + intros m _. destruct (c_mask M N cfg pid_m pid_n n m).
      * constructor; [intros []|constructor].
      * constructor.
    + intros m m' b Hm Hm' Hb Hb'. apply in_arange in Hm, Hm'.
      destruct (c_mask M N cfg pid_m pid_n n m); [|contradiction].
      destruct (c_mask M N cfg pid_m pid_n n m'); [|contradiction].
      destruct Hb as [<-|[]]. destruct Hb' as [E|[]].
      apply (f_equal fst) in E. cbn [fst] in E.
      rewrite !offs_cm_small in E by assumption. lia.
  - intros n n' b Hn Hn' Hb Hb'. apply in_arange in Hn, Hn'.
    apply in_flat_map in Hb as (m & _ & Hb).
    apply in_flat_map in Hb' as (m' & _ & Hb').
    destruct (c_mask M N cfg pid_m pid_n n m); [|contradiction].
    destruct (c_mask M N cfg pid_m pid_n n' m'); [|contradiction].
    destruct Hb as [<-|[]]. destruct Hb' as [E|[]].
    apply (f_equal snd) in E. cbn [snd] in E.
    rewrite !offs_cn_small in E by assumption. lia.
Qed.

(** ** The reduction loop and the store of one instance *)

Section KernelFacts.

Variable V : Type.
Variable zero : V.
Variables add mul : V -> V -> V.
Variable to_bfloat16 : V -> V.
Variables a_mem b_mem : Z -> V.
Variables M N K : Z.
Variables stride_am stride_ak stride_bk stride_bn stride_cm stride_cn : Z.
Variable cfg : Config.
Variable USE_INT8_WEIGHT : bool.
Variable DEBUG : bool.

Local Abbreviation BM := (BLOCK_SIZE_M cfg).
Local Abbreviation BN := (BLOCK_SIZE_N cfg).
Local Abbreviation BK := (BLOCK_SIZE_K cfg).
Local Abbreviation body :=
  (loop_body V zero add mul to_bfloat16 a_mem b_mem K stride_ak stride_bk cfg
     USE_INT8_WEIGHT).
Local Abbreviation init :=
  (loop_init V zero M N stride_am stride_ak stride_bk stride_bn cfg).
Local Abbreviation steps n pid_m pid_n :=
  (fold_left body (Tl.arange (Z.of_nat n)) (init pid_m pid_n)).
Local Abbreviation a_init := (a_ptrs_init M stride_am stride_ak cfg).
Local Abbreviation b_init := (b_ptrs_init N stride_bk stride_bn cfg).
Local Abbreviation loop :=
  (reduction V zero add mul to_bfloat16 a_mem b_mem M N K
     stride_am stride_ak stride_bk stride_bn cfg USE_INT8_WEIGHT).
Local Abbreviation kernel :=
  (matmul_kernel V zero add mul to_bfloat16 a_mem b_mem M N K
     stride_am stride_ak stride_bk stride_bn stride_cm stride_cn cfg
     USE_INT8_WEIGHT DEBUG).
Local Abbreviation run :=
  (launch V zero add mul to_bfloat16 a_mem b_mem M N K
     stride_am stride_ak stride_bk stride_bn stride_cm stride_cn cfg
     USE_INT8_WEIGHT DEBUG).
Local Abbreviation run_stores :=
  (launch_stores V zero add mul to_bfloat16 a_mem b_mem M N K
     stride_am stride_ak stride_bk stride_bn stride_cm stride_cn cfg
     USE_INT8_WEIGHT DEBUG).
Local Abbreviation run_failed :=
  (launch_failed V zero add mul to_bfloat16 a_mem b_mem M N K
     stride_am stride_ak stride_bk stride_bn stride_cm stride_cn cfg
     USE_INT8_WEIGHT DEBUG).
Local Abbreviation cells pid :=
  (store_cells M N cfg (fst (tile_of_pid M N cfg pid))
     (snd (tile_of_pid M N cfg pid))).
(* the address of a cell as line 152 computes it *)
Local Abbreviation cell_ptr :=
  (fun cell : Z * Z =>
     mul_arg stride_cm (fst cell) + mul_arg stride_cn (snd cell)).

Lemma steps_S n pid_m pid_n :
  steps (S n) pid_m pid_n = body (steps n pid_m pid_n) (Z.of_nat n).
Proof. rewrite arange_S, fold_left_app. reflexivity. Qed.

(** After [n] iterations the weight pointers have advanced [n] times by the
    product [BLOCK_SIZE_K * stride_bk]. *)
Lemma steps_b_ptrs n pid_m pid_n i j :
  b_ptrs (steps n pid_m pid_n) i j =
  b_init pid_n i j + Z.of_nat n * mul_arg stride_bk BK.
Proof.
  induction n as [|n IH].
  - cbn [Tl.arange Z.to_nat Z.of_nat seq map fold_left loop_init b_ptrs]. lia.
  - rewrite steps_S. unfold loop_body at 1. cbn [b_ptrs].
    rewrite IH. lia.
Qed.

(** The weight addresses read by [n] iterations, in order: iteration [k]
    reads the whole block of pointers as advanced [k] times. *)
Lemma steps_b_reads_eq n pid_m pid_n :
  b_reads (steps n pid_m pid_n) =
  flat_map
    (fun k =>
       block_addrs BN BK
         (fun i j => b_init pid_n i j + k * mul_arg stride_bk BK))
    (Tl.arange (Z.of_nat n)).
Proof.
  induction n as [|n IH].
  - reflexivity.
  - rewrite steps_S. unfold loop_body at 1. cbn [b_reads].
    rewrite IH, arange_S, flat_map_app. cbn [flat_map].
    rewrite app_nil_r. f_equal.
    apply block_addrs_ext. intros i j. apply steps_b_ptrs.
Qed.

Lemma steps_a_ptrs n pid_m pid_n i j :
  a_ptrs (steps n pid_m pid_n) i j =
  a_init pid_m i j + Z.of_nat n * mul_arg stride_ak BK.
Proof.
  induction n as [|n IH].
  - cbn [Tl.arange Z.to_nat Z.of_nat seq map fold_left loop_init a_ptrs]. lia.
  - rewrite steps_S. unfold loop_body at 1. cbn [a_ptrs].
    rewrite IH. lia.
Qed.

Lemma steps_a_reads n pid_m pid_n addr :
  In addr (a_reads (steps n pid_m pid_n)) <->
  exists k kk m, 0 <= k < Z.of_nat n /\ 0 <= kk < BK /\ 0 <= m < BM /\
                 kk < K - k * BK /\
                 addr = a_init pid_m kk m + k * mul_arg stride_ak BK.
Proof.
  induction n as [|n IH].
  - cbn [Tl.arange Z.to_nat Z.of_nat seq map fold_left loop_init a_reads].
    split; [intros []|]. intros (k & _ & _ & Hk & _). lia.
  - rewrite steps_S. unfold loop_body at 1. cbn [a_reads].
    rewrite in_app_iff, IH, in_block_addrs_masked. unfold offs_ak. split.
    + intros [(k & kk & m & Hk & Hkk & Hm & Hmask & ->)
             |(kk & m & Hkk & Hm & Hmask & ->)].
      * exists k, kk, m. repeat split; lia.
      * apply Z.ltb_lt in Hmask.
        exists (Z.of_nat n), kk, m. rewrite steps_a_ptrs.
        repeat split; lia.
    + intros (k & kk & m & Hk & Hkk & Hm & Hmask & ->).
      destruct (Z.eq_dec k (Z.of_nat n)) as [->|Hne].
      * right. exists kk, m. rewrite steps_a_ptrs.
        repeat split; lia.
      * left. exists k, kk, m. repeat split; lia.
Qed.

Lemma reduction_steps pid_m pid_n :
  loop pid_m pid_n = steps (Z.to_nat (cdiv_int K BK)) pid_m pid_n.
Proof.
  unfold reduction, Tl.range. now rewrite arange_to_nat.
Qed.

(** Without device assertions, or when the asserted condition holds, the
    instance runs to its store. *)
Lemma kernel_finished pid :
  DEBUG = false \/ K mod BK = 0 ->
  let pid_m := fst (tile_of_pid M N cfg pid) in
  let pid_n := snd (tile_of_pid M N cfg pid) in
  let st := steps (Z.to_nat (cdiv_int K BK)) pid_m pid_n in
  kernel pid =
  Finished (a_reads st) (b_reads st)
    (tl_store BN BM (c_ptrs stride_cm stride_cn cfg pid_m pid_n)
       (fun n m => to_bfloat16 (accumulator st n m))
       (c_mask M N cfg pid_m pid_n)).
Proof.
  intros HK pid_m pid_n st. unfold matmul_kernel.
  replace (DEBUG && negb (K mod BK =? 0)) with false.
  - destruct (tile_of_pid M N cfg pid) as [pm pn] eqn:Et.
    rewrite reduction_steps. reflexivity.
  - destruct HK as [-> | ->]; [reflexivity|].
    rewrite Z.eqb_refl. now destruct DEBUG.
Qed.

Lemma kernel_asserts pid :
  DEBUG = true -> K mod BK <> 0 -> kernel pid = DeviceAssertFailed.
Proof.
  intros -> HK. unfold matmul_kernel.
  apply Z.eqb_neq in HK. now rewrite HK.
Qed.

Lemma written_cells pid :
  DEBUG = false \/ K mod BK = 0 ->
  map fst (stores_of V (kernel pid)) = map cell_ptr (cells pid).
Proof.
  intros HK. rewrite (kernel_finished pid HK).
  cbn [stores_of]. apply tl_store_cells.
Qed.

Lemma launch_written grid_size :
  DEBUG = false \/ K mod BK = 0 ->
  map fst (run_stores grid_size) =
  flat_map (fun pid => map cell_ptr (cells pid)) (Tl.arange grid_size).
Proof.
  intros HK. unfold launch_stores, launch, Tl.range.
  rewrite flat_map_map_l, map_flat_map.
  apply flat_map_ext. intros pid. now apply written_cells.
Qed.

Lemma steps_b_reads n pid_m pid_n addr :
  In addr (b_reads (steps n pid_m pid_n)) <->
  exists k i j, 0 <= k < Z.of_nat n /\ 0 <= i < BN /\ 0 <= j < BK /\
                addr = b_init pid_n i j + k * mul_arg stride_bk BK.
Proof.
  rewrite steps_b_reads_eq, in_flat_map. split.
  - intros (k & Hk & Ha). apply in_arange in Hk.
    apply in_block_addrs in Ha as (i & j & Hi & Hj & ->).
    exists k, i, j. auto.
  - intros (k & i & j & Hk & Hi & Hj & ->).
    exists k. split; [now apply in_arange|].
    apply in_block_addrs. exists i, j. auto.
Qed.

(** A launch whose instances all run to their store does not fail. *)
Lemma launch_does_not_fail grid_size :
  DEBUG = false \/ K mod BK = 0 ->
  (forall r, In r (run grid_size) -> asserted V r = false)
  /\ run_failed grid_size = false.
Proof.
  intros HK.
  assert (Hall : forall r, In r (run grid_size) -> asserted V r = false).
  { intros r Hr. unfold launch in Hr. apply in_map_iff in Hr.
    destruct Hr as (pid & <- & _). now rewrite (kernel_finished pid HK). }
  split; [exact Hall|]. unfold launch_failed.
  destruct (existsb (asserted V) (run grid_size)) eqn:E; [|reflexivity].
  apply existsb_exists in E as (r & Hr & Ea).
  rewrite (Hall r Hr) in Ea. discriminate.
Qed.

(** The pointer blocks of the operands, where the 32-bit sums do not wrap. *)
Lemma b_init_small pid_n n kk :
  0 < N ->
  0 <= pid_n * BN -> pid_n * BN + BN <= 2 ^ 31 ->
  0 <= stride_bk -> 0 <= stride_bn ->
  BK * stride_bk + N * stride_bn < 2 ^ 31 ->
  0 <= n < BN -> 0 <= kk < BK ->
  b_init pid_n n kk =
  kk * stride_bk + ((pid_n * BN + n) mod N) * stride_bn.
Proof.
  intros HN H0 H1 Hsk Hsn Hb Hn Hkk. unfold b_ptrs_init, offs_bk.
  rewrite (offs_bn_small N cfg pid_n n) by assumption.
  pose proof (Z.mod_pos_bound (pid_n * BN + n) N HN) as Hc.
  change (2 ^ 31) with 2147483648 in *.
  rewrite !mul_arg_small, add_args_small;
    change (2 ^ 31) with 2147483648; nia.
Qed.

Lemma a_init_small pid_m kk m :
  0 < M ->
  0 <= pid_m * BM -> pid_m * BM + BM <= 2 ^ 31 ->
  0 <= stride_am -> 0 <= stride_ak ->
  M * stride_am + BK * stride_ak < 2 ^ 31 ->
  0 <= kk < BK -> 0 <= m < BM ->
  a_init pid_m kk m =
  ((pid_m * BM + m) mod M) * stride_am + kk * stride_ak.
Proof.
  intros HM H0 H1 Hsm Hsk Hb Hkk Hm. unfold a_ptrs_init, offs_ak.
  rewrite (offs_am_small M cfg pid_m m) by assumption.
  pose proof (Z.mod_pos_bound (pid_m * BM + m) M HM) as Hr.
  change (2 ^ 31) with 2147483648 in *.
  rewrite !mul_arg_small, add_args_small;
    change (2 ^ 31) with 2147483648; nia.
Qed.

Lemma advance_small stride bound :
  0 < BK -> 0 <= stride -> 0 <= bound ->
  BK * stride + bound < 2 ^ 31 ->
  mul_arg stride BK = BK * stride.
Proof.
  intros HBK Hs Hb Hlt. rewrite mul_arg_small; [lia|].
  change (2 ^ 31) with 2147483648 in *. nia.
Qed.

Section Grid.

Hypothesis HM : 0 <= M.
Hypothesis HN : 0 <= N.
Hypothesis HBM : 0 < BM.
Hypothesis HBN : 0 < BN.
Hypothesis HG : 0 < GROUP_SIZE_M cfg.
Hypothesis HM32 : M + BM <= 2 ^ 31.
Hypothesis HN32 : N + BN <= 2 ^ 31.

Lemma tile_in_range pid :
  0 <= pid < grid M N cfg ->
  0 <= fst (tile_of_pid M N cfg pid) < Tl.cdiv M BM
  /\ 0 <= snd (tile_of_pid M N cfg pid) < Tl.cdiv N BN.
Proof.
  intros Hp. rewrite tile_of_pid_small by assumption.
  apply grouped_tile_in_range; auto using cdiv_nonneg.
Qed.

Lemma tile_fits pid :
  0 <= pid < grid M N cfg ->
  let pid_m := fst (tile_of_pid M N cfg pid) in
  let pid_n := snd (tile_of_pid M N cfg pid) in
  (0 <= pid_m * BM /\ pid_m * BM + BM <= 2 ^ 31)
  /\ (0 <= pid_n * BN /\ pid_n * BN + BN <= 2 ^ 31).
Proof.
  intros Hp pid_m pid_n. destruct (tile_in_range pid Hp) as [Hm Hn].
  split; [apply (tile_offset_fits M)|apply (tile_offset_fits N)]; assumption.
Qed.

Lemma in_cells pid row col :
  0 <= pid < grid M N cfg ->
  let pid_m := fst (tile_of_pid M N cfg pid) in
  let pid_n := snd (tile_of_pid M N cfg pid) in
  In (row, col) (cells pid) <->
  pid_m * BM <= row < pid_m * BM + BM
  /\ pid_n * BN <= col < pid_n * BN + BN
  /\ row < M /\ col < N.
Proof.
  intros Hp pid_m pid_n. destruct (tile_fits pid Hp) as [[? ?] [? ?]].
  now apply in_store_cells.
Qed.

Lemma cell_in_bounds pid row col :
  0 <= pid < grid M N cfg ->
  In (row, col) (cells pid) -> 0 <= row < M /\ 0 <= col < N.
Proof.
  intros Hp Hc. destruct (tile_fits pid Hp) as [[? ?] [? ?]].
  apply (in_cells pid row col Hp) in Hc. lia.
Qed.

(** Where the two products of line 152 do not wrap, the stored addresses
    are [stride_cm * row + stride_cn * col]. *)
Lemma written_addresses pid :
  0 <= pid < grid M N cfg ->
  0 <= stride_cm -> 0 <= stride_cn ->
  M * stride_cm <= 2 ^ 31 -> N * stride_cn <= 2 ^ 31 ->
  DEBUG = false \/ K mod BK = 0 ->
  map fst (stores_of V (kernel pid)) =
  map (fun cell => stride_cm * fst cell + stride_cn * snd cell) (cells pid).
Proof.
  intros Hp Hsm Hsn Hbm Hbn HK. rewrite (written_cells pid HK).
  apply map_ext_in. intros [row col] Hc. cbn [fst snd].
  destruct (cell_in_bounds pid row col Hp Hc) as [Hr Hcl].
  now rewrite (mul_arg_index stride_cm M), (mul_arg_index stride_cn N).
Qed.



Lemma cell_tile pid row col :
  0 <= pid < grid M N cfg ->
  In (row, col) (cells pid) ->
  fst (tile_of_pid M N cfg pid) = row / BM
  /\ snd (tile_of_pid M N cfg pid) = col / BN.
Proof.
  intros Hp Hc. apply (in_cells pid row col Hp) in Hc.
  destruct Hc as (Hr & Hcl & _ & _). split.
  - apply (Z.div_unique _ _ _ (row - fst (tile_of_pid M N cfg pid) * BM)); lia.
  - apply (Z.div_unique _ _ _ (col - snd (tile_of_pid M N cfg pid) * BN)); lia.
Qed.

Lemma launch_addresses :
  0 <= stride_cm -> 0 <= stride_cn ->
  M * stride_cm <= 2 ^ 31 -> N * stride_cn <= 2 ^ 31 ->
  DEBUG = false \/ K mod BK = 0 ->
  map fst (run_stores (grid M N cfg)) =
  map (fun cell => stride_cm * fst cell + stride_cn * snd cell)
    (flat_map (fun pid => cells pid) (Tl.arange (grid M N cfg))).
Proof.
  intros Hsm Hsn Hbm Hbn HK. rewrite (launch_written _ HK), map_flat_map.
  apply flat_map_ext_In. intros pid Hp. apply in_arange in Hp.
  rewrite <- (written_cells pid HK).
  now apply written_addresses.
Qed.

(** Over a launch with the grid of the driver and a dense output, the
    stored addresses are those of [[0, M * N)], each once. *)
Lemma launch_partition :
  stride_cm = N -> stride_cn = 1 -> M * N <= 2 ^ 31 ->
  DEBUG = false \/ K mod BK = 0 ->
  NoDup (map fst (run_stores (grid M N cfg)))
  /\ forall addr,
       In addr (map fst (run_stores (grid M N cfg))) <-> 0 <= addr < M * N.
Proof.
  intros Hcm Hcn HMN HK.
  assert (HN31 : N * 1 <= 2 ^ 31)
    by (change (2 ^ 31) with 2147483648 in *; lia).
  rewrite launch_addresses; try assumption; rewrite ?Hcm, ?Hcn;
    try assumption; try lia.
  split.
  - apply NoDup_map_NoDup_ForallPairs.
    + intros [r1 c1] [r2 c2] H1 H2 E.
      apply in_flat_map in H1 as (p & Hp & H1).
      apply in_flat_map in H2 as (q & Hq & H2).
      apply in_arange in Hp, Hq.
      destruct (cell_in_bounds p r1 c1 Hp H1) as [Hr1 Hc1].
      destruct (cell_in_bounds q r2 c2 Hq H2) as [Hr2 Hc2].
      cbn [fst snd] in E.
      assert (r1 = r2) by nia. subst r2.
      f_equal. lia.
    + apply NoDup_flat_map_disjoint.
      * apply NoDup_arange.
      * intros pid Hp. apply in_arange in Hp.
        destruct (tile_fits pid Hp) as [[? ?] [? ?]].
        now apply NoDup_store_cells.
      * intros p q [row col] Hp Hq H1 H2.
        apply in_arange in Hp, Hq.
        destruct (cell_tile p row col Hp H1) as [Em En].
        destruct (cell_tile q row col Hq H2) as [Em' En'].
        apply (grouped_tile_injective (Tl.cdiv M BM) (Tl.cdiv N BN)
                 (GROUP_SIZE_M cfg)); auto using cdiv_nonneg.
        rewrite <- !(tile_of_pid_small M N cfg) by assumption.
        rewrite (surjective_pairing (tile_of_pid M N cfg p)).
        rewrite (surjective_pairing (tile_of_pid M N cfg q)).
        congruence.
  - intros addr. rewrite in_map_iff. split.
    + intros ([row col] & <- & Hc).
      apply in_flat_map in Hc as (pid & Hp & Hc). apply in_arange in Hp.
      destruct (cell_in_bounds pid row col Hp Hc). cbn [fst snd]. nia.
    + intros Ha.
      assert (HNp : 0 < N) by nia.
      assert (HMp : 0 < M) by nia.
      set (row := addr / N). set (col := addr mod N).
      pose proof (Z.div_mod addr N ltac:(lia)) as E.
      pose proof (Z.mod_pos_bound addr N HNp) as Bc.
      fold row col in E, Bc.
      assert (Hrow : 0 <= row < M).
      { split; [apply Z.div_pos; lia|].
        apply Z.div_lt_upper_bound; nia. }
      set (m := row / BM). set (n := col / BN).
      pose proof (Z.div_mod row BM ltac:(lia)) as Er.
      pose proof (Z.mod_pos_bound row BM HBM) as Br.
      pose proof (Z.div_mod col BN ltac:(lia)) as Ec.
      pose proof (Z.mod_pos_bound col BN HBN) as Bcn.
      fold m in Er. fold n in Ec.
      pose proof (cdiv_covers M BM HM HBM) as CM.
      pose proof (cdiv_covers N BN HN HBN) as CN.
      assert (Hm : 0 <= m < Tl.cdiv M BM).
      { split; [apply Z.div_pos; lia|].
        apply Z.div_lt_upper_bound; lia. }
      assert (Hn : 0 <= n < Tl.cdiv N BN).
      { split; [apply Z.div_pos; lia|].
        apply Z.div_lt_upper_bound; lia. }
      set (pid := grouped_pid (Tl.cdiv M BM) (Tl.cdiv N BN)
                    (GROUP_SIZE_M cfg) m n).
      assert (Hpid : 0 <= pid < grid M N cfg).
      { apply grouped_pid_in_range; auto using cdiv_nonneg; lia. }
      assert (Ht : tile_of_pid M N cfg pid = (m, n)).
      { rewrite tile_of_pid_small by assumption.
        apply grouped_tile_pid; auto using cdiv_nonneg; lia. }
      exists (row, col). split; [cbn [fst snd]; lia|].
      apply in_flat_map. exists pid. split; [now apply in_arange|].
      apply (in_cells pid row col Hpid). rewrite Ht. cbn [fst snd]. lia.
Qed.

(** X3. The offsets of the activation pointers are 32-bit:
    [M * stride_am + BLOCK_SIZE_K * stride_ak] has to stay below [2 ^ 31],
    and no tile of rows may reach [2 ^ 31].  Then, whatever K is, the
    masked load of the activation slab of a tile of the grid reads only
    addresses [r * stride_am + c * stride_ak] of elements [(r, c)] of the
    M x K matrix A: the row is wrapped modulo M and the mask cuts the
    columns at K.  For a dense A these addresses are inside the buffer. *)
Theorem activation_loads_in_bounds (pid_m pid_n : Z) :
  0 < M -> 0 < BK ->
  0 <= pid_m < Tl.cdiv M BM ->
  0 <= stride_am -> 0 <= stride_ak ->
  M * stride_am + BK * stride_ak < 2 ^ 31 ->
  (forall addr, In addr (a_reads (loop pid_m pid_n)) ->
     exists r c, 0 <= r < M /\ 0 <= c < K /\
                 addr = r * stride_am + c * stride_ak)
  /\ (stride_am = K -> stride_ak = 1 ->
      forall addr, In addr (a_reads (loop pid_m pid_n)) ->
        0 <= addr < M * K).
Proof.
  intros HMp HBK Hpm Hsm Hsk Hb.
  destruct (tile_offset_fits M BM pid_m HM HBM Hpm HM32) as [Hm0 Hm1].
  assert (H : forall addr, In addr (a_reads (loop pid_m pid_n)) ->
     exists r c, 0 <= r < M /\ 0 <= c < K /\
                 addr = r * stride_am + c * stride_ak).
  { intros addr Ha. rewrite reduction_steps in Ha. apply steps_a_reads in Ha.
    destruct Ha as (k & kk & m & Hk & Hkk & Hm & Hmask & ->).
    exists ((pid_m * BM + m) mod M), (k * BK + kk).
    split; [apply Z.mod_pos_bound; lia|]. split; [nia|].
    rewrite a_init_small by assumption.
    rewrite (advance_small stride_ak (M * stride_am)) by (assumption || nia).
    lia. }
  split; [exact H|].
  intros Ham Hak addr Ha. apply H in Ha.
  destruct Ha as (r & c & Hr & Hc & ->). rewrite Ham, Hak. nia.
Qed.

(** X4. The check on K is what keeps the unmasked weight load in bounds:
    when K is positive and not a multiple of BLOCK_SIZE_K, the reduction
    loop of a tile of the grid reads row
    [ceil(K / BLOCK_SIZE_K) * BLOCK_SIZE_K - 1] of B, which is not below K;
    for a dense B this address is beyond the K x N buffer.  The offsets and
    the number of steps are taken where their 32-bit arithmetic does not
    wrap. *)
Theorem weight_load_overruns_without_divisibility (pid_m pid_n : Z) :
  0 < K -> 0 < N -> 0 < BK -> K mod BK <> 0 ->
  K + BK <= 2 ^ 31 ->
  0 <= pid_n < Tl.cdiv N BN ->
  0 <= stride_bk -> 0 <= stride_bn ->
  BK * stride_bk + N * stride_bn < 2 ^ 31 ->
  exists addr r c,
    In addr (b_reads (loop pid_m pid_n))
    /\ K <= r /\ 0 <= c < N
    /\ addr = r * stride_bk + c * stride_bn
    /\ (stride_bk = N -> stride_bn = 1 -> K * N <= addr).
Proof.
  intros HK HNp HBK Hnd HK32 Hpn Hsk Hsn Hb.
  pose proof (cdiv_int_small K BK ltac:(lia) HBK HK32) as Hcd.
  destruct (tile_offset_fits N BN pid_n HN HBN Hpn HN32) as [Hn0 Hn1].
  pose proof (cdiv_covers K BK ltac:(lia) HBK) as Hcov.
  pose proof (cdiv_nonneg K BK ltac:(lia) HBK) as Hnn.
  assert (Hne : Tl.cdiv K BK * BK <> K).
  { intros E. apply Hnd. rewrite <- E. apply Z.mod_mul. lia. }
  assert (Hpos : 0 < Tl.cdiv K BK) by nia.
  set (r := (Tl.cdiv K BK - 1) * BK + (BK - 1)).
  set (c := (pid_n * BN + 0) mod N).
  assert (Hc : 0 <= c < N) by (apply Z.mod_pos_bound; lia).
  exists (r * stride_bk + c * stride_bn), r, c.
  split; [|split; [|split; [|split]]].
  - rewrite reduction_steps, Hcd. apply steps_b_reads.
    exists (Tl.cdiv K BK - 1), 0, (BK - 1).
    rewrite Z2Nat.id by assumption.
    repeat split; try lia.
    rewrite b_init_small by (assumption || lia).
    rewrite (advance_small stride_bk (N * stride_bn)) by (assumption || nia).
    fold c. unfold r. lia.
  - unfold r. lia.
  - exact Hc.
  - reflexivity.
  - intros -> ->. unfold r. nia.
Qed.

End Grid.

(** C8, as the code has it. The condition [K mod BLOCK_SIZE_K = 0] is
    checked nowhere but in the device assertion that opens every kernel
    instance, and there only in a kernel compiled with device assertions.
    When the condition does not hold: with device assertions compiled in,
    every instance of a launch fails before any load or store, nothing is
    written, and the launch fails exactly when it has at least one instance;
    with device assertions compiled out, as the driver launches the kernel,
    no instance fails, the launch does not fail, and every instance stores
    the cells of its tile that pass the store mask. *)
Theorem divisibility_checked_only_by_device_assert (grid_size : Z) :
  K mod BK <> 0 ->
  (DEBUG = true ->
     (forall r, In r (run grid_size) -> r = DeviceAssertFailed)
     /\ run_stores grid_size = []
     /\ (run_failed grid_size = true <-> 0 < grid_size))
  /\ (DEBUG = false ->
      (forall r, In r (run grid_size) -> asserted V r = false)
      /\ run_failed grid_size = false
      /\ map fst (run_stores grid_size) =
         flat_map (fun pid => map cell_ptr (cells pid))
           (Tl.arange grid_size)).
Proof.
  intros HK. split; intros Hd.
  - assert (Hall : forall r, In r (run grid_size) -> r = DeviceAssertFailed).
    { intros r Hr. unfold launch in Hr. apply in_map_iff in Hr.
      destruct Hr as (pid & <- & _). now apply kernel_asserts. }
    split; [exact Hall|]. split.
    + unfold launch_stores.
      induction (run grid_size) as [|r rs IH]; [reflexivity|].
      cbn [flat_map]. rewrite (Hall r) by now left.
      cbn [stores_of app]. apply IH. intros r' Hr'. apply Hall. now right.
    + unfold launch_failed. rewrite existsb_exists. split.
      * intros (r & Hr & _). unfold launch, Tl.range in Hr.
        apply in_map_iff in Hr as (pid & _ & Hp). apply in_arange in Hp. lia.
      * intros Hg. exists DeviceAssertFailed. split; [|reflexivity].
        unfold launch. apply in_map_iff. exists 0.
        split; [now apply kernel_asserts|]. apply in_arange. lia.
  - destruct (launch_does_not_fail grid_size (or_introl Hd)) as [Hall Hf].
    split; [exact Hall|]. split; [exact Hf|].
    apply launch_written. now left.
Qed.

(** X7. With no reduction dimension (K = 0) an instance reads nothing and
    stores the rounded zero in every cell it writes. *)
Theorem empty_reduction_stores_zero (pid : Z) :
  K = 0 -> 0 < BK ->
  exists st,
    kernel pid = Finished [] [] st
    /\ forall addr v, In (addr, v) st -> v = to_bfloat16 zero.
Proof.
  intros HK HBK.
  assert (Hm : K mod BK = 0) by (rewrite HK; apply Z.mod_0_l; lia).
  assert (Hc : Z.to_nat (cdiv_int K BK) = 0%nat).
  { rewrite HK, cdiv_int_zero by assumption. reflexivity. }
  eexists. split.
  - rewrite (kernel_finished pid (or_intror Hm)).
    rewrite Hc. reflexivity.
  - intros addr v Hin. apply in_tl_store in Hin.
    destruct Hin as (i & j & _ & _ & _ & _ & ->). reflexivity.
Qed.

End KernelFacts.


(** ** Bytes and nibbles *)

(** Linear arithmetic with division and remainder by constants. *)
Ltac zmod := Z.div_mod_to_equations; lia.

Lemma to_int8_range z : -128 <= to_int8 z <= 127.
Proof. unfold to_int8. zmod. Qed.

Lemma to_int8_small z : -128 <= z <= 127 -> to_int8 z = z.
Proof. unfold to_int8. zmod. Qed.

Lemma to_int4_small z : -8 <= z <= 7 -> to_int4 z = z.
Proof. unfold to_int4. zmod. Qed.

Lemma land_15 z : Z.land z 15 = z mod 16.
Proof. change 15 with (Z.ones 4). now rewrite Z.land_ones. Qed.

Lemma shiftl_4 z : Z.shiftl z 4 = z * 16.
Proof. now rewrite Z.shiftl_mul_pow2. Qed.

(** A low nibble and a multiple of 16 have no bit in common, so their
    bitwise OR is their sum. *)
Lemma lor_nibbles a t : 0 <= a < 16 -> Z.lor a (t * 16) = a + t * 16.
Proof.
  intros Ha.
  assert (Hl : Z.land a (t * 16) = 0).
  { rewrite <- (shiftl_4 t).
    replace a with (Z.land a (Z.ones 4))
      by (rewrite Z.land_ones by lia; apply Z.mod_small; simpl; lia).
    apply Z.bits_inj'. intros n Hn.
    rewrite !Z.land_spec, Z.bits_0.
    destruct (Z.lt_ge_cases n 4).
    - rewrite Z.shiftl_spec_low by assumption. now rewrite andb_false_r.
    - rewrite Z.ones_spec_high by lia. now rewrite andb_false_r. }
  pose proof (Z.add_lor_land a (t * 16)) as E. lia.
Qed.

(** What the packer computes for one pair of elements. *)
Lemma pack_byte_code x y :
  Z.lor (Z.land (to_int8 x) 15) (to_int8 (Z.shiftl (to_int8 y) 4)) =
  x mod 16 + to_int4 y * 16.
Proof.
  rewrite land_15, shiftl_4.
  replace (to_int8 (to_int8 y * 16)) with (to_int4 y * 16)
    by (unfold to_int8, to_int4; zmod).
  rewrite lor_nibbles by (unfold to_int8; zmod).
  unfold to_int8. zmod.
Qed.

Lemma pack_byte_spec x y :
  to_int8 (Z.lor (Z.land x 15) (Z.shiftl y 4)) = x mod 16 + to_int4 y * 16.
Proof.
  rewrite land_15, shiftl_4, lor_nibbles by zmod.
  unfold to_int8, to_int4. zmod.
Qed.

Lemma pack_byte_in_range x y :
  -8 <= x <= 7 -> -8 <= y <= 7 ->
  to_int8 (Z.lor (Z.land x 15) (Z.shiftl y 4)) =
  Z.lor (Z.land x 15) (Z.shiftl y 4).
Proof.
  intros Hx Hy. apply to_int8_small.
  rewrite land_15, shiftl_4, lor_nibbles by zmod. zmod.
Qed.

Lemma pack_byte_truncates x y :
  to_int8 (Z.lor (Z.land x 15) (Z.shiftl y 4)) =
  to_int8 (Z.lor (Z.land (to_int4 x) 15) (Z.shiftl (to_int4 y) 4)).
Proof.
  rewrite !pack_byte_spec. unfold to_int4. zmod.
Qed.

(** The shift pair recovers both lanes of a packed byte. *)
Lemma nibbles_of_packed x y :
  let b := to_int8 (Z.lor (Z.land x 15) (Z.shiftl y 4)) in
  nibble_lo b = to_int4 x /\ nibble_hi b = to_int4 y.
Proof.
  cbv zeta. rewrite pack_byte_spec. unfold nibble_lo, nibble_hi.
  rewrite shiftl_4, !Z.shiftr_div_pow2 by lia.
  change (2 ^ 4) with 16. unfold to_int8, to_int4. split; zmod.
Qed.

(** ** Reshaping rows *)

Lemma length_concat_rows {A} (n : nat) (l : list (list A)) :
  Forall (fun r => length r = n) l ->
  length (concat l) = (length l * n)%nat.
Proof.
  induction 1 as [|r l Hr _ IH]; simpl; [reflexivity|].
  rewrite length_app, Hr, IH. reflexivity.
Qed.

Lemma chunks_concat {A} (n : nat) (l : list (list A)) :
  Forall (fun r => length r = n) l ->
  chunks (length l) n (concat l) = l.
Proof.
  induction 1 as [|r l Hr _ IH]; simpl; [reflexivity|].
  rewrite firstn_app, skipn_app, Hr, Nat.sub_diag.
  rewrite <- Hr at 1 3. rewrite firstn_all, skipn_all.
  simpl. rewrite app_nil_r, IH. reflexivity.
Qed.

Lemma nth_map_lt {A B} (f : A -> B) (l : list A) (j : nat) (d : A) (d' : B) :
  (j < length l)%nat -> nth j (map f l) d' = f (nth j l d).
Proof.
  revert j. induction l as [|x l IH]; intros [|j] Hj; simpl in *;
    try lia; [reflexivity|]. apply IH. lia.
Qed.

Lemma length_map2 {A B C} (f : A -> B -> C) (l : list A) (l' : list B) (n : nat) :
  length l = n -> length l' = n -> length (map2 f l l') = n.
Proof.
  revert l l'. induction n as [|n IH]; intros [|x l] [|y l'] Hl Hl';
    simpl in *; try discriminate; [reflexivity|].
  f_equal. apply IH; congruence.
Qed.

Lemma nth_map2 {A B C} (f : A -> B -> C) (l : list A) (l' : list B)
    (j : nat) (d : A) (d' : B) (d'' : C) :
  (j < length l)%nat -> (j < length l')%nat ->
  nth j (map2 f l l') d'' = f (nth j l d) (nth j l' d').
Proof.
  revert l l'. induction j as [|j IH]; intros [|x l] [|y l'] Hl Hl';
    simpl in *; try lia; [reflexivity|]. apply IH; lia.
Qed.

(** ** The packer computes the specification's pairing *)

Lemma pack_row_code (e0 e1 : list Z) :
  map2 Z.lor (map (fun x => Z.land x 15) (map to_int8 e0))
             (map (fun y => to_int8 (Z.shiftl y 4)) (map to_int8 e1)) =
  map to_int8 (map2 (fun x y => Z.lor (Z.land x 15) (Z.shiftl y 4)) e0 e1).
Proof.
  revert e1. induction e0 as [|x e0 IH]; intros [|y e1]; cbn [map map2];
    try reflexivity.
  rewrite IH, pack_byte_code, pack_byte_spec. reflexivity.
Qed.

Lemma pack_rows_code (K2 : nat) : forall W : matrix,
  length W = (2 * K2)%nat ->
  let groups := chunks K2 2 (map (map to_int8) W) in
  map2 (map2 Z.lor)
    (map (map (fun x => Z.land x 15)) (map (fun grp => nth 0 grp []) groups))
    (map (map (fun y => to_int8 (Z.shiftl y 4)))
       (map (fun grp => nth 1 grp []) groups)) =
  map (map to_int8) (pack_spec W).
Proof.
  induction K2 as [|K2 IH]; intros W HW.
  - destruct W; [reflexivity|discriminate].
  - destruct W as [|e0 [|e1 rest]]; simpl in HW; try lia.
    cbn [map chunks firstn skipn nth map2 pack_spec].
    rewrite pack_row_code. f_equal. apply IH. lia.
Qed.

Lemma pack_2xint4_code (W : matrix) (K2 N : nat) :
  length W = (2 * K2)%nat -> Forall (fun row => length row = N) W ->
  pack_2xint4 W = inr (map (map to_int8) (pack_spec W)).
Proof.
  intros HW Hrows.
  destruct W as [|e0 W'] eqn:EW; [reflexivity|]. rewrite <- EW in *.
  assert (HN : shape1 W = N).
  { subst W. simpl. now inversion Hrows. }
  assert (HK : (shape0 W / 2 = K2)%nat).
  { unfold shape0. rewrite HW, Nat.mul_comm. apply Nat.div_mul. lia. }
  assert (H8 : Forall (fun r => length r = N) (map (map to_int8) W)).
  { apply Forall_map. eapply Forall_impl; [|exact Hrows].
    intros r Hr. now rewrite length_map. }
  unfold pack_2xint4, reshape3. rewrite HN, HK.
  rewrite (length_concat_rows N) by assumption.
  rewrite length_map, HW.
  replace (2 * K2 * N =? K2 * 2 * N)%nat with true
    by (symmetry; apply Nat.eqb_eq; lia).
  cbn [bind ret].
  replace (K2 * 2)%nat with (length (map (map to_int8) W))
    by (rewrite length_map; lia).
  rewrite chunks_concat by assumption.
  cbn [permute_102 seq map nth]. unfold ret.
  f_equal. now apply pack_rows_code.
Qed.

Lemma pack_spec_length (K2 : nat) : forall W : matrix,
  length W = (2 * K2)%nat -> length (pack_spec W) = K2.
Proof.
  induction K2 as [|K2 IH]; intros W HW.
  - destruct W; [reflexivity|discriminate].
  - destruct W as [|e0 [|e1 rest]]; simpl in HW; try lia.
    cbn [pack_spec length]. f_equal. apply IH. lia.
Qed.

Lemma pack_spec_rows (N : nat) (K2 : nat) : forall W : matrix,
  length W = (2 * K2)%nat ->
  Forall (fun row => length row = N) W ->
  Forall (fun row => length row = N) (pack_spec W).
Proof.
  induction K2 as [|K2 IH]; intros W HW Hrows.
  - destruct W; [constructor|discriminate].
  - destruct W as [|e0 [|e1 rest]]; simpl in HW; try lia.
    inversion Hrows as [|? ? H0 Hr1]; subst.
    inversion Hr1 as [|? ? H1 Hrest]; subst.
    cbn [pack_spec]. constructor.
    + now apply length_map2.
    + apply IH; [lia|assumption].
Qed.

Lemma pack_spec_entry (N : nat) (K2 : nat) : forall (W : matrix) (i j : nat),
  length W = (2 * K2)%nat ->
  Forall (fun row => length row = N) W ->
  (i < K2)%nat -> (j < N)%nat ->
  entry (pack_spec W) i j =
  Z.lor (Z.land (entry W (2 * i) j) 15) (Z.shiftl (entry W (2 * i + 1) j) 4).
Proof.
  induction K2 as [|K2 IH]; intros W i j HW Hrows Hi Hj; [lia|].
  destruct W as [|e0 [|e1 rest]]; simpl in HW; try lia.
  inversion Hrows as [|? ? H0 Hr1]; subst.
  inversion Hr1 as [|? ? H1 Hrest]; subst.
  destruct i as [|i].
  - unfold entry. cbn [pack_spec nth Nat.mul Nat.add].
    apply (nth_map2 (fun x y => Z.lor (Z.land x 15) (Z.shiftl y 4))); lia.
  - unfold entry in *. cbn [pack_spec nth].
    replace (2 * S i)%nat with (S (S (2 * i))) by lia.
    replace (S (S (2 * i)) + 1)%nat with (S (S (2 * i + 1))) by lia.
    cbn [nth]. apply IH; [lia|assumption|lia|lia].
Qed.

Lemma pack_spec_in_range : forall W : matrix,
  Forall (Forall (fun v => -8 <= v <= 7)) W ->
  map (map to_int8) (pack_spec W) = pack_spec W.
Proof.
  fix IH 1. intros [|e0 [|e1 rest]] HW; try reflexivity.
  inversion HW as [|? ? H0 Hr1]; subst.
  inversion Hr1 as [|? ? H1 Hrest]; subst.
  cbn [pack_spec map]. rewrite (IH rest Hrest). f_equal.
  clear - H0 H1. revert e1 H1.
  induction H0 as [|x e0 Hx _ IHe]; intros e1 H1; [reflexivity|].
  destruct H1 as [|y e1 Hy H1]; [reflexivity|].
  cbn [map2 map]. rewrite IHe by assumption.
  now rewrite pack_byte_in_range.
Qed.

Lemma pack_spec_truncates : forall W : matrix,
  map (map to_int8) (pack_spec (map (map to_int4) W)) =
  map (map to_int8) (pack_spec W).
Proof.
  fix IH 1. intros [|e0 [|e1 rest]]; try reflexivity.
  cbn [pack_spec map]. rewrite (IH rest). f_equal.
  revert e1. induction e0 as [|x e0 IHe]; intros [|y e1]; try reflexivity.
  cbn [map2 map]. rewrite IHe. now rewrite <- pack_byte_truncates.
Qed.

(** C5. For every K x N matrix W of integers with K even and values in
    [[-8, 7]], the packer returns a (K/2) x N matrix in which entry
    [(i, j)] pairs rows [2i] and [2i + 1] of W: it is element 0 masked to
    4 bits, OR-ed with element 1 shifted left 4 bits.  The value range is not
    validated: on a matrix of any values the packer returns as well, with
    the result it gives on the values truncated to 4 bits. *)
Theorem pack_2xint4_pairs_rows (W : matrix) (K2 N : nat) :
  length W = (2 * K2)%nat ->
  Forall (fun row => length row = N) W ->
  Forall (Forall (fun v => -8 <= v <= 7)) W ->
  (exists P,
     pack_2xint4 W = inr P
     /\ length P = K2
     /\ Forall (fun row => length row = N) P
     /\ forall i j, (i < K2)%nat -> (j < N)%nat ->
          entry P i j =
          Z.lor (Z.land (entry W (2 * i) j) 15)
                (Z.shiftl (entry W (2 * i + 1) j) 4))
  /\ (forall W' : matrix,
        length W' = (2 * K2)%nat ->
        Forall (fun row => length row = N) W' ->
        exists P',
          pack_2xint4 W' = inr P'
          /\ pack_2xint4 (map (map to_int4) W') = inr P').
Proof.
  intros HW Hrows Hrange. split.
  - exists (pack_spec W). split; [|split; [|split]].
    + rewrite (pack_2xint4_code W K2 N) by assumption.
      now rewrite pack_spec_in_range.
    + now apply pack_spec_length.
    + now apply (pack_spec_rows N K2).
    + intros i j Hi Hj. now apply (pack_spec_entry N K2).
  - intros W' HW' Hrows'.
    exists (map (map to_int8) (pack_spec W')). split.
    + now apply (pack_2xint4_code W' K2 N).
    + rewrite (pack_2xint4_code (map (map to_int4) W') K2 N).
      * now rewrite pack_spec_truncates.
      * now rewrite length_map.
      * apply Forall_map. eapply Forall_impl; [|exact Hrows'].
        intros r Hr. now rewrite length_map.
Qed.

Lemma pack_2xint4_pairs_rows_witness :
  (exists P,
     pack_2xint4 scenario_W = inr P
     /\ length P = 2%nat
     /\ Forall (fun row => length row = 2%nat) P
     /\ forall i j, (i < 2)%nat -> (j < 2)%nat ->
          entry P i j =
          Z.lor (Z.land (entry scenario_W (2 * i) j) 15)
                (Z.shiftl (entry scenario_W (2 * i + 1) j) 4))
  /\ (forall W' : matrix,
        length W' = (2 * 2)%nat ->
        Forall (fun row => length row = 2%nat) W' ->
        exists P',
          pack_2xint4 W' = inr P'
          /\ pack_2xint4 (map (map to_int4) W') = inr P').
Proof.
  apply (pack_2xint4_pairs_rows scenario_W 2 2).
  - reflexivity.
  - repeat constructor.
  - repeat constructor; lia.
Defined.

(** C4, against the claim: the first byte of the packed scenario matrix is
    not 0xE1, and its high nibble is not -2. *)
Lemma pack_scenario_first_byte_not_E1 :
  exists P,
    pack_2xint4 scenario_W = inr P
    /\ byte_of (entry P 0 0) <> 0xE1
    /\ nibble_hi (entry P 0 0) <> -2.
Proof.
  exists [[49; -50]; [117; -118]].
  split; [reflexivity|]. split; vm_compute; discriminate.
Qed.

(** C4, as the code has it. Packing the 4 x 2 scenario matrix yields the
    2 x 2 byte matrix [[0x31, 0xCE], [0x75, 0x8A]]: rows are paired along K,
    so entry [0][0] holds low nibble 1 (from row 0) and high nibble 3 (from
    row 1), the byte 0x31; the shift pair of the unpacking block
    reconstructs the original matrix from it. *)
Theorem pack_scenario :
  exists P,
    pack_2xint4 scenario_W = inr P
    /\ map (map byte_of) P = [[0x31; 0xCE]; [0x75; 0x8A]]
    /\ nibble_lo (entry P 0 0) = 1
    /\ nibble_hi (entry P 0 0) = 3
    /\ unpack_2xint4 P = scenario_W.
Proof.
  exists [[49; -50]; [117; -118]]. repeat split; reflexivity.
Qed.

(** ** Dequantization in the reduction loop *)

Lemma bfloat16_of_int8 z : -128 <= z <= 127 -> bfloat16_of_Z z = z.
Proof.
  intros Hz. unfold bfloat16_of_Z.
  assert (H : Z.log2 (Z.abs z) < 8).
  { destruct (Z.eq_dec z 0) as [->|Hne]; [reflexivity|].
    apply Z.log2_lt_pow2; lia. }
  apply Z.ltb_lt in H. now rewrite H.
Qed.

Lemma fold_left_ext {A B} (f g : A -> B -> A) (l : list B) (a : A) :
  (forall s x, f s x = g s x) -> fold_left f l a = fold_left g l a.
Proof.
  intros E. revert a. induction l as [|x l IH]; intros a; simpl;
    [reflexivity|]. now rewrite E, IH.
Qed.

(** C3, against the claim: on a weight block that holds the byte 0xE1 the
    packed dequantization of the specification yields the lanes 1 and -2,
    while the kernel, with either value of its flag, yields the byte's own
    value -31 in every lane. *)
Lemma kernel_dequantize_extracts_no_nibble :
  let b : block Z := fun _ _ => -31 in
  byte_of (-31) = 0xE1
  /\ packed_dequantize_spec b 0 0 = 1
  /\ packed_dequantize_spec b 0 1 = -2
  /\ kernel_dequantize true b 0 0 = -31
  /\ kernel_dequantize true b 0 1 = -31
  /\ kernel_dequantize false b 0 0 = -31
  /\ kernel_dequantize true b 0 0 <> packed_dequantize_spec b 0 0.
Proof.
  repeat split; try reflexivity. vm_compute. discriminate.
Qed.

(** C3, as the code has it. The kernel has no packed mode.  In every
    reduction step each lane [(n, kk)] of the weight operand of the
    multiply-accumulate is the one element loaded from [b_ptrs[n][kk]],
    taken whole: converted to bfloat16 when [USE_INT8_WEIGHT] is set, which
    leaves an int8 value unchanged, and used as loaded otherwise.  No nibble
    is extracted and no lanes are interleaved. *)
Theorem reduction_step_uses_whole_elements
    (a_mem b_mem : Z -> Z) (K stride_ak stride_bk : Z) (cfg : Config)
    (USE_INT8_WEIGHT : bool) (st : loop_state Z) (k n m : Z) :
  (forall addr, -128 <= b_mem addr <= 127) ->
  kernel_dequantize USE_INT8_WEIGHT (tl_load b_mem (b_ptrs st)) n m =
    b_mem (b_ptrs st n m)
  /\ accumulator
       (loop_body Z 0 Z.add Z.mul bfloat16_of_Z a_mem b_mem K
          stride_ak stride_bk cfg USE_INT8_WEIGHT st k) n m =
     accumulator st n m +
     fold_left
       (fun s kk =>
          s + b_mem (b_ptrs st n kk) *
              tl_load_masked a_mem (a_ptrs st)
                (fun kk _ => kk <? K - k * BLOCK_SIZE_K cfg) 0 kk m)
       (Tl.arange (BLOCK_SIZE_K cfg)) 0.
Proof.
  intros Hb.
  assert (Hd : forall i j,
    dequantize Z bfloat16_of_Z USE_INT8_WEIGHT (tl_load b_mem (b_ptrs st)) i j =
    b_mem (b_ptrs st i j)).
  { intros i j. unfold dequantize, tl_load.
    destruct USE_INT8_WEIGHT; [now apply bfloat16_of_int8|reflexivity]. }
  split; [apply Hd|].
  unfold loop_body. cbn [accumulator]. f_equal.
  unfold tl_dot. apply fold_left_ext. intros s kk.
  now rewrite Hd.
Qed.

Lemma reduction_step_uses_whole_elements_witness :
  kernel_dequantize true (tl_load (fun _ => -31) (fun n k => n + k)) 0 1 = -31.
Proof.
  apply (reduction_step_uses_whole_elements
           (fun _ => 1) (fun _ => -31) 4 1 3 (mkConfig 2 2 2 8 1 1) true
           (mkLoop (fun _ _ => 0) (fun k m => k + m) (fun n k => n + k) [] [])
           0 0 1).
  intros addr. lia.
Defined.

(** ** The host driver *)

Lemma matmul_returns (a b : Tensor) (use_int16 : bool) (M K Kb N : Z) :
  is_contiguous a = true -> shape a = [M; K] -> shape b = [Kb; N] ->
  matmul a b use_int16 =
  inr (TorchEmpty [M; N] ::
         (if use_int16 then
            [ TritonCompile int16_ttgir;
              KernelLaunch (Precompiled int16_ttgir)
                [Tl.cdiv M 128 * Tl.cdiv N 256; 1; 1]
                [ ArgTensor a; ArgTensor b; ArgTensor (torch_empty [M; N]);
                  ArgInt M; ArgInt N; ArgInt K;
                  ArgInt (stride a 0); ArgInt (stride b 0);
                  ArgInt (stride (torch_empty [M; N]) 0) ] ]
          else
            [ KernelLaunch (Autotuned AUTOTUNE_CONFIGS false)
                [grid M N META]
                [ ArgTensor a; ArgTensor b; ArgTensor (torch_empty [M; N]);
                  ArgInt M; ArgInt N; ArgInt K;
                  ArgInt (stride a 0); ArgInt (stride a 1);
                  ArgInt (stride b 0); ArgInt (stride b 1);
                  ArgInt (stride (torch_empty [M; N]) 0);
                  ArgInt (stride (torch_empty [M; N]) 1) ];
              FileWrite (dump_path false "ttir");
              FileWrite (dump_path false "ttgir");
              FileWrite (dump_path false "llir");
              FileWrite (dump_path false "ptx") ]),
       torch_empty [M; N]).
Proof.
  intros Hc Ha Hb. unfold matmul. rewrite Hc, Ha, Hb.
  destruct use_int16; reflexivity.
Qed.

(** C6, against the claim: a contiguous 1 x 2 matrix A and a 3 x 1 matrix B
    disagree on the inner dimension, with or without a packing factor of 2,
    and [matmul] launches a kernel and returns an output in both modes. *)
Lemma matmul_accepts_shape_mismatch :
  let a := mkTensor [1; 2] [2; 1] in
  let b := mkTensor [3; 1] [1; 1] in
  nth 1 (shape a) 0 <> nth 0 (shape b) 0
  /\ nth 1 (shape a) 0 <> nth 0 (shape b) 0 * 2
  /\ (exists k g args rest,
        matmul a b false =
        inr (TorchEmpty [1; 1] :: KernelLaunch k g args :: rest,
             torch_empty [1; 1]))
  /\ (exists k g args,
        matmul a b true =
        inr ([TorchEmpty [1; 1]; TritonCompile int16_ttgir;
              KernelLaunch k g args],
             torch_empty [1; 1])).
Proof.
  cbv zeta. split; [|split; [|split]].
  - vm_compute. discriminate.
  - vm_compute. discriminate.
  - do 4 eexists. reflexivity.
  - do 3 eexists. reflexivity.
Qed.

(** The plan of a call on two-dimensional operands with a contiguous A: the
    allocation, on the int16 path the compile, then the launch. *)
Lemma matmul_plan (a b : Tensor) (use_int16 : bool) (M K Kb N : Z) :
  is_contiguous a = true -> shape a = [M; K] -> shape b = [Kb; N] ->
  exists k g more after,
    matmul a b use_int16 =
    inr ((TorchEmpty [M; N]
            :: (if use_int16 then [TritonCompile int16_ttgir] else []))
           ++ KernelLaunch k g
                (ArgTensor a :: ArgTensor b :: ArgTensor (torch_empty [M; N])
                   :: ArgInt M :: ArgInt N :: ArgInt K :: more)
           :: after,
         torch_empty [M; N]).
Proof.
  intros Hc Ha Hb. rewrite (matmul_returns a b use_int16 M K Kb N Hc Ha Hb).
  destruct use_int16; do 4 eexists; reflexivity.
Qed.

Lemma matmul_run_plan env (a b : Tensor) (use_int16 : bool) evs c :
  matmul a b use_int16 = inr (evs, c) ->
  matmul_run env a b use_int16 =
  (fst (run_events env evs),
   match snd (run_events env evs) with Some x => inl x | None => inr c end).
Proof.
  intros E. unfold matmul_run. rewrite E.
  destruct (run_events env evs). reflexivity.
Qed.

Lemma run_events_app env (l1 l2 : list event) :
  (forall e, In e l1 -> env e = None) ->
  run_events env (l1 ++ l2) =
  (l1 ++ fst (run_events env l2), snd (run_events env l2)).
Proof.
  induction l1 as [|e l1 IH]; intros Hok.
  - cbn [app]. now destruct (run_events env l2).
  - cbn [app run_events]. rewrite (Hok e) by now left.
    rewrite IH by (intros e' He'; apply Hok; now right). reflexivity.
Qed.

Lemma run_events_head env (e : event) (rest : list event) :
  In e (fst (run_events env (e :: rest))).
Proof.
  cbn [run_events]. destruct (env e); [now left|].
  destruct (run_events env rest). now left.
Qed.

Lemma run_events_raise env (l1 l2 : list event) (e : event) (x : exn) :
  (forall e', In e' l1 -> env e' = None) -> env e = Some x ->
  run_events env (l1 ++ e :: l2) = (l1 ++ [e], Some x).
Proof.
  intros Hok He. rewrite run_events_app by assumption.
  cbn [run_events]. rewrite He. reflexivity.
Qed.

Lemma run_events_returns env (evs : list event) :
  snd (run_events env evs) = None <-> forall e, In e evs -> env e = None.
Proof.
  induction evs as [|e evs IH]; cbn [run_events].
  - split; [intros _ e []|reflexivity].
  - destruct (env e) eqn:Ee.
    + split; [discriminate|]. intros H.
      rewrite (H e) in Ee by now left. discriminate.
    + destruct (run_events env evs) as [done r]. cbn [snd] in *.
      rewrite IH. split.
      * intros H e' [<-|He']; auto.
      * intros H e' He'. apply H. now right.
Qed.

(** The operations performed are an initial segment of the plan that stops
    inside [l1] when an operation of [l1] raises. *)
Lemma run_events_stops env (l1 l2 : list event) :
  ~ (forall e, In e l1 -> env e = None) ->
  forall e, In e (fst (run_events env (l1 ++ l2))) -> In e l1.
Proof.
  induction l1 as [|e1 l1 IH]; intros Hbad e He.
  - exfalso. apply Hbad. intros e' [].
  - cbn [app run_events] in He. destruct (env e1) eqn:E1.
    + destruct He as [<-|[]]. now left.
    + destruct (run_events env (l1 ++ l2)) as [done r] eqn:Er.
      cbn [fst] in *. destruct He as [<-|He]; [now left|].
      right. apply IH; [|exact He].
      intros Hok. apply Hbad. intros e' [<-|He']; auto.
Qed.

(** C6, as the code has it. [matmul] compares no dimension of A with a
    dimension of B: the assertion that did is commented out.  For a
    two-dimensional A and B, whether or not the inner dimensions agree, the
    kernel launch is attempted exactly when A is contiguous and neither the
    allocation of the output nor, with [use_int16], the compile of the
    precompiled kernel raises; the launch is given M and K from A and N from
    B.  A non-contiguous A fails the contiguity assertion before anything is
    done. *)
Theorem matmul_compares_no_inner_dimension
    (env : environment) (a b : Tensor) (use_int16 : bool) (M K Kb N : Z) :
  shape a = [M; K] -> shape b = [Kb; N] ->
  let c := torch_empty [M; N] in
  let before :=
    TorchEmpty [M; N]
      :: (if use_int16 then [TritonCompile int16_ttgir] else []) in
  let trace := fst (matmul_run env a b use_int16) in
  (is_contiguous a = false ->
     matmul_run env a b use_int16 =
     ([], inl (AssertionError "Matrix A must be contiguous")))
  /\ (is_contiguous a = true ->
      (forall e, In e before -> env e = None) ->
      exists k g more,
        In (KernelLaunch k g
              (ArgTensor a :: ArgTensor b :: ArgTensor c
                 :: ArgInt M :: ArgInt N :: ArgInt K :: more)) trace)
  /\ (forall k g args,
        In (KernelLaunch k g args) trace ->
        is_contiguous a = true /\ forall e, In e before -> env e = None).
Proof.
  intros Ha Hb c before trace. split; [|split].
  - intros Hc. unfold matmul_run, matmul. now rewrite Hc.
  - intros Hc Hok.
    destruct (matmul_plan a b use_int16 M K Kb N Hc Ha Hb)
      as (k & g & more & after & E).
    exists k, g, more. unfold trace.
    rewrite (matmul_run_plan env a b use_int16 _ _ E). cbn [fst].
    rewrite run_events_app by exact Hok. cbn [fst].
    apply in_or_app. right. apply run_events_head.
  - intros k g args Hin.
    destruct (is_contiguous a) eqn:Hc.
    + split; [reflexivity|].
      destruct (matmul_plan a b use_int16 M K Kb N Hc Ha Hb)
        as (k' & g' & more & after & E).
      unfold trace in Hin.
      rewrite (matmul_run_plan env a b use_int16 _ _ E) in Hin.
      cbn [fst] in Hin.
      assert (Hdec : (forall e, In e before -> env e = None)
                     \/ ~ (forall e, In e before -> env e = None)).
      { unfold before.
        destruct (env (TorchEmpty [M; N])) eqn:E1.
        - right. intros H. rewrite (H (TorchEmpty [M; N])) in E1
            by now left. discriminate.
        - destruct use_int16.
          + destruct (env (TritonCompile int16_ttgir)) eqn:E2.
            * right. intros H.
              rewrite (H (TritonCompile int16_ttgir)) in E2
                by (right; now left). discriminate.
            * left. intros e [<-|[<-|[]]]; assumption.
          + left. intros e [<-|[]]; assumption. }
      destruct Hdec as [Hok|Hbad]; [exact Hok|].
      apply (run_events_stops env _ _ Hbad) in Hin.
      unfold before in Hin.
      destruct use_int16; cbn [In] in Hin; intuition discriminate.
    + unfold trace, matmul_run, matmul in Hin. rewrite Hc in Hin.
      destruct Hin.
Qed.

Lemma matmul_compares_no_inner_dimension_witness :
  exists k g more,
    In (KernelLaunch k g
          (ArgTensor (mkTensor [1; 2] [2; 1])
             :: ArgTensor (mkTensor [3; 1] [1; 1])
             :: ArgTensor (torch_empty [1; 1])
             :: ArgInt 1 :: ArgInt 1 :: ArgInt 2 :: more))
       (fst (matmul_run all_succeed (mkTensor [1; 2] [2; 1])
               (mkTensor [3; 1] [1; 1]) false)).
Proof.
  destruct (matmul_compares_no_inner_dimension all_succeed
              (mkTensor [1; 2] [2; 1]) (mkTensor [3; 1] [1; 1]) false
              1 2 3 1 eq_refl eq_refl) as (_ & Hlaunch & _).
  apply Hlaunch; [reflexivity|]. intros e _. reflexivity.
Defined.


(** C10. When [use_int16] is set, [matmul] does not launch the autotuned
    [matmul_kernel]: it compiles the kernel stored at the fixed path
    [/home/dberard/local/scripts/triton/int8mm/int16.ttgir], launches it on
    [ceil(M / 128) * ceil(N / 256)] units and passes A, B, C, the three
    dimensions and only the leading stride of each matrix.  As the other
    path passes the flag unset, no call of [matmul] runs [matmul_kernel]
    with [USE_INT8_WEIGHT] set. *)
Theorem matmul_int16_uses_precompiled_kernel
    (a b : Tensor) (M K Kb N : Z) :
  is_contiguous a = true -> shape a = [M; K] -> shape b = [Kb; N] ->
  let c := torch_empty [M; N] in
  let path := "/home/dberard/local/scripts/triton/int8mm/int16.ttgir"%string in
  matmul a b true =
    inr ([ TorchEmpty [M; N];
           TritonCompile path;
           KernelLaunch (Precompiled path)
             [Tl.cdiv M 128 * Tl.cdiv N 256; 1; 1]
             [ ArgTensor a; ArgTensor b; ArgTensor c;
               ArgInt M; ArgInt N; ArgInt K;
               ArgInt (stride a 0); ArgInt (stride b 0);
               ArgInt (stride c 0) ] ],
         c)
  /\ (forall use_int16 evs c',
        matmul a b use_int16 = inr (evs, c') ->
        (use_int16 = true -> autotuned_launches evs = [])
        /\ forall flag, In flag (autotuned_launches evs) -> flag = false).
Proof.
  intros Hc Ha Hb c path. split.
  - now rewrite (matmul_returns a b true M K Kb N).
  - intros use_int16 evs c' Hm.
    rewrite (matmul_returns a b use_int16 M K Kb N Hc Ha Hb) in Hm.
    injection Hm as <- _.
    destruct use_int16; cbn [autotuned_launches flat_map app].
    + split; [reflexivity|]. intros flag [].
    + split; [discriminate|]. intros flag [<-|[]]. reflexivity.
Qed.

Lemma matmul_int16_uses_precompiled_kernel_witness :
  matmul (mkTensor [129; 64] [64; 1]) (mkTensor [64; 257] [257; 1]) true =
  inr ([ TorchEmpty [129; 257];
         TritonCompile "/home/dberard/local/scripts/triton/int8mm/int16.ttgir";
         KernelLaunch
           (Precompiled "/home/dberard/local/scripts/triton/int8mm/int16.ttgir")
           [4; 1; 1]
           [ ArgTensor (mkTensor [129; 64] [64; 1]);
             ArgTensor (mkTensor [64; 257] [257; 1]);
             ArgTensor (mkTensor [129; 257] [257; 1]);
             ArgInt 129; ArgInt 257; ArgInt 64;
             ArgInt 64; ArgInt 257; ArgInt 257 ] ],
       mkTensor [129; 257] [257; 1]).
Proof.
  apply (matmul_int16_uses_precompiled_kernel
           (mkTensor [129; 64] [64; 1]) (mkTensor [64; 257] [257; 1])
           129 64 64 257); reflexivity.
Defined.

(** ** Instances of the kernel theorems *)

(** C8, against the claim: with K = 65 and BLOCK_SIZE_K = 64 the driver
    raises nothing and plans the launch of two instances for a 129 x 5
    output; launched as the driver launches it, the kernel does not fail and
    its instances store every one of the 645 cells of the output, once. *)
Lemma divisibility_violation_not_detected :
  let written :=
    map fst
      (launch_stores Z 0 Z.add Z.mul bfloat16_of_Z (fun _ => 0) (fun _ => 0)
         129 5 65 65 1 5 1 5 1 META false false (grid 129 5 META)) in
  65 mod BLOCK_SIZE_K META <> 0
  /\ (exists args after,
        matmul (mkTensor [129; 65] [65; 1]) (mkTensor [65; 5] [5; 1]) false =
        inr (TorchEmpty [129; 5]
               :: KernelLaunch (Autotuned AUTOTUNE_CONFIGS false) [2] args
               :: after,
             torch_empty [129; 5]))
  /\ launch_failed Z 0 Z.add Z.mul bfloat16_of_Z (fun _ => 0) (fun _ => 0)
       129 5 65 65 1 5 1 5 1 META false false (grid 129 5 META) = false
  /\ (forall addr, In addr written <-> 0 <= addr < 129 * 5)
  /\ length written = 645%nat.
Proof.
  cbv zeta.
  assert (Hoff : false = false \/ 65 mod BLOCK_SIZE_K META = 0) by now left.
  destruct (launch_partition Z 0 Z.add Z.mul bfloat16_of_Z (fun _ => 0)
              (fun _ => 0) 129 5 65 65 1 5 1 5 1 META false false)
    as [Hnd Hin];
    [vm_compute; intuition congruence ..|exact Hoff|].
  split; [|split; [|split; [|split]]].
  - vm_compute. discriminate.
  - do 2 eexists. reflexivity.
  - apply launch_does_not_fail. exact Hoff.
  - exact Hin.
  - apply Nat2Z.inj. now rewrite (NoDup_range_length _ (129 * 5) Hnd Hin).
Qed.

Lemma divisibility_checked_only_by_device_assert_witness :
  launch_failed Z 0 Z.add Z.mul bfloat16_of_Z (fun _ => 0) (fun _ => 0)
    129 5 65 65 1 5 1 5 1 META false false (grid 129 5 META) = false
  /\ forall r,
       In r (launch Z 0 Z.add Z.mul bfloat16_of_Z (fun _ => 0) (fun _ => 0)
               129 5 65 65 1 5 1 5 1 META false false (grid 129 5 META)) ->
       asserted Z r = false.
Proof.
  destruct (divisibility_checked_only_by_device_assert
              Z 0 Z.add Z.mul bfloat16_of_Z (fun _ => 0) (fun _ => 0)
              129 5 65 65 1 5 1 5 1 META false false (grid 129 5 META))
    as (_ & Hoff).
  - vm_compute. discriminate.
  - destruct (Hoff eq_refl) as (Hall & Hf & _). split; assumption.
Defined.





(** * Further properties of the code *)

(** ** Order of the tiles *)

(** X1. The ids of group [g = pid / (GROUP_M * num_pid_n)] are mapped to the
    band of row tiles [[g * GROUP_M, min ((g + 1) * GROUP_M, num_pid_m))];
    inside a full group the ids run down the rows of the band first and
    then move to the next column (column-major order in the band). *)
Theorem grouped_tile_band (num_pid_m num_pid_n GROUP_M pid : Z) :
  0 < GROUP_M -> 0 <= num_pid_m -> 0 <= num_pid_n ->
  0 <= pid < num_pid_m * num_pid_n ->
  let g := pid / (GROUP_M * num_pid_n) in
  let r := pid mod (GROUP_M * num_pid_n) in
  g * GROUP_M <= fst (grouped_tile num_pid_m num_pid_n GROUP_M pid)
    < Z.min ((g + 1) * GROUP_M) num_pid_m
  /\ ((g + 1) * GROUP_M <= num_pid_m ->
      grouped_tile num_pid_m num_pid_n GROUP_M pid =
      (g * GROUP_M + r mod GROUP_M, r / GROUP_M)).
Proof.
  intros HG HM HN Hp g r.
  destruct (pid_decompose num_pid_m num_pid_n GROUP_M HG HM HN pid Hp)
    as (HnN & Hg & HgM & Hh & E & Hr).
  fold g r in Hg, HgM, Hh, E, Hr.
  unfold grouped_tile. fold g r. cbn [fst].
  set (h := Z.min (num_pid_m - g * GROUP_M) GROUP_M) in *.
  pose proof (Z.mod_pos_bound pid h ltac:(lia)) as Bm.
  split; [unfold h in *; lia|].
  intros Hfull.
  assert (Eh : h = GROUP_M) by (unfold h; lia).
  rewrite Eh. f_equal. f_equal.
  rewrite E at 1.
  replace (g * (GROUP_M * num_pid_n) + r)
    with (r + (g * num_pid_n) * GROUP_M) by lia.
  apply Z.mod_add. lia.
Qed.

Lemma grouped_tile_band_witness :
  3 * 3 <= fst (grouped_tile 10 4 3 39) < Z.min ((3 + 1) * 3) 10
  /\ grouped_tile 10 4 3 17 = (1 * 3 + 5 mod 3, 5 / 3).
Proof.
  destruct (grouped_tile_band 10 4 3 39) as [H39 _]; try lia.
  destruct (grouped_tile_band 10 4 3 17) as [_ H17]; try lia.
  split; [exact H39|]. apply H17. vm_compute. discriminate.
Defined.

(** X2. When all row tiles fit in one group ([num_pid_m <= GROUP_M]) the
    mapping is plain column-major order: [pid_m = pid mod num_pid_m] and
    [pid_n = pid / num_pid_m]. *)
Theorem single_group_column_major (num_pid_m num_pid_n GROUP_M pid : Z) :
  0 <= num_pid_n -> num_pid_m <= GROUP_M ->
  0 <= pid < num_pid_m * num_pid_n ->
  grouped_tile num_pid_m num_pid_n GROUP_M pid =
  (pid mod num_pid_m, pid / num_pid_m).
Proof.
  intros HN HMG Hp.
  assert (HnN : 0 < num_pid_n).
  { destruct (Z.eq_dec num_pid_n 0) as [->|]; lia. }
  assert (HM : 0 < num_pid_m) by nia.
  unfold grouped_tile.
  assert (Hg : pid / (GROUP_M * num_pid_n) = 0) by (apply Z.div_small; nia).
  assert (Hr : pid mod (GROUP_M * num_pid_n) = pid)
    by (apply Z.mod_small; nia).
  rewrite Hg, Hr.
  replace (Z.min (num_pid_m - 0 * GROUP_M) GROUP_M) with num_pid_m by lia.
  reflexivity.
Qed.

Lemma single_group_column_major_witness :
  grouped_tile 2 5 8 7 = (7 mod 2, 7 / 2).
Proof.
  apply (single_group_column_major 2 5 8 7); lia.
Defined.

(** ** The whole launch

    The launch of the driver: the grid of [grid] and the dense M x N output
    that [torch.empty] allocates, of strides [(N, 1)]. *)

Section LaunchFacts.

Variable V : Type.
Variable zero : V.
Variables add mul : V -> V -> V.
Variable to_bfloat16 : V -> V.
Variables a_mem b_mem : Z -> V.
Variables M N K : Z.
Variables stride_am stride_ak stride_bk stride_bn : Z.
Variable cfg : Config.
Variable USE_INT8_WEIGHT : bool.
Variable DEBUG : bool.

Local Abbreviation BM := (BLOCK_SIZE_M cfg).
Local Abbreviation BN := (BLOCK_SIZE_N cfg).
Local Abbreviation BK := (BLOCK_SIZE_K cfg).
Local Abbreviation kernel :=
  (matmul_kernel V zero add mul to_bfloat16 a_mem b_mem M N K
     stride_am stride_ak stride_bk stride_bn N 1 cfg USE_INT8_WEIGHT DEBUG).
Local Abbreviation run_stores :=
  (launch_stores V zero add mul to_bfloat16 a_mem b_mem M N K
     stride_am stride_ak stride_bk stride_bn N 1 cfg USE_INT8_WEIGHT DEBUG).

Hypothesis HM : 0 <= M.
Hypothesis HN : 0 <= N.
Hypothesis HBM : 0 < BM.
Hypothesis HBN : 0 < BN.
Hypothesis HG : 0 < GROUP_SIZE_M cfg.
Hypothesis HM32 : M + BM <= 2 ^ 31.
Hypothesis HN32 : N + BN <= 2 ^ 31.
Hypothesis HMN32 : M * N <= 2 ^ 31.

(** The instances reach their store: device assertions are compiled out, or
    the asserted condition holds. *)
Hypothesis Hstore : DEBUG = false \/ K mod BK = 0.

(** X5. Tile partition: over a whole launch with the grid of the driver and
    the dense M x N output, of at most [2 ^ 31] elements so that the 32-bit
    offsets of the store do not wrap, the instances together store to every
    address of [[0, M * N)] and to no other, and no address is stored to
    twice, neither by two instances nor by one; so the launch makes
    [M * N] stores. *)
Theorem launch_writes_each_cell_once :
  let written := map fst (run_stores (grid M N cfg)) in
  NoDup written
  /\ (forall addr, In addr written <-> 0 <= addr < M * N)
  /\ Z.of_nat (length written) = M * N.
Proof.
  intros written.
  destruct (launch_partition V zero add mul to_bfloat16 a_mem b_mem M N K
              stride_am stride_ak stride_bk stride_bn N 1 cfg USE_INT8_WEIGHT
              DEBUG HM HN HBM HBN HG HM32 HN32 eq_refl eq_refl HMN32 Hstore)
    as [Hnd Hin].
  split; [exact Hnd|]. split; [exact Hin|].
  unfold written. rewrite (NoDup_range_length _ (M * N) Hnd Hin). nia.
Qed.

(** X6. The launch has no idle instance: every instance of the grid stores
    at least the first cell of its tile,
    [(pid_m * BLOCK_SIZE_M, pid_n * BLOCK_SIZE_N)], which is inside the
    output. *)
Theorem every_instance_writes pid :
  0 <= pid < grid M N cfg ->
  let row := fst (tile_of_pid M N cfg pid) * BM in
  let col := snd (tile_of_pid M N cfg pid) * BN in
  0 <= row < M /\ 0 <= col < N
  /\ In (N * row + 1 * col) (map fst (stores_of V (kernel pid))).
Proof.
  intros Hp row col.
  destruct (tile_in_range M N cfg HM HN HBM HBN HG HM32 HN32 pid Hp)
    as [Hm Hn].
  pose proof (cdiv_covers M BM HM HBM) as CM.
  pose proof (cdiv_covers N BN HN HBN) as CN.
  assert (Hr : 0 <= row < M) by (unfold row; nia).
  assert (Hc : 0 <= col < N) by (unfold col; nia).
  assert (HN31 : N * 1 <= 2 ^ 31)
    by (change (2 ^ 31) with 2147483648 in *; lia).
  split; [exact Hr|]. split; [exact Hc|].
  rewrite (written_addresses V zero add mul to_bfloat16 a_mem b_mem M N K
             stride_am stride_ak stride_bk stride_bn N 1 cfg USE_INT8_WEIGHT
             DEBUG HM HN HBM HBN HG HM32 HN32 pid Hp HN ltac:(lia) HMN32 HN31
             Hstore).
  apply in_map_iff. exists (row, col). split; [reflexivity|].
  apply (in_cells M N cfg HM HN HBM HBN HG HM32 HN32 pid row col Hp).
  unfold row, col. lia.
Qed.

End LaunchFacts.


(** ** Packing and unpacking *)

Lemma unpack_row (e0 e1 : list Z) :
  length e0 = length e1 ->
  let row :=
    map to_int8 (map2 (fun x y => Z.lor (Z.land x 15) (Z.shiftl y 4)) e0 e1) in
  map nibble_lo row = map to_int4 e0 /\ map nibble_hi row = map to_int4 e1.
Proof.
  revert e1. induction e0 as [|x e0 IH]; intros [|y e1] Hl;
    try discriminate; [split; reflexivity|].
  injection Hl as Hl. destruct (IH e1 Hl) as [IHlo IHhi].
  destruct (nibbles_of_packed x y) as [Hlo Hhi].
  cbn [map2 map]. cbv zeta in IHlo, IHhi.
  rewrite IHlo, IHhi, Hlo, Hhi. split; reflexivity.
Qed.

Lemma unpack_cons (row : list Z) (P : matrix) :
  unpack_2xint4 (row :: P) =
  map nibble_lo row :: map nibble_hi row :: unpack_2xint4 P.
Proof.
  unfold unpack_2xint4. cbn [map concat app]. rewrite !map_map. reflexivity.
Qed.

Lemma unpack_pack_spec (N : nat) (K2 : nat) : forall W : matrix,
  length W = (2 * K2)%nat ->
  Forall (fun row => length row = N) W ->
  unpack_2xint4 (map (map to_int8) (pack_spec W)) = map (map to_int4) W.
Proof.
  induction K2 as [|K2 IH]; intros W HW Hrows.
  - destruct W; [reflexivity|discriminate].
  - destruct W as [|e0 [|e1 rest]]; simpl in HW; try lia.
    inversion Hrows as [|? ? H0 Hr1]; subst.
    inversion Hr1 as [|? ? H1 Hrest]; subst.
    destruct (unpack_row e0 e1 (eq_sym H1)) as [Hlo Hhi].
    cbv zeta in Hlo, Hhi.
    specialize (IH rest ltac:(lia) Hrest).
    cbn [pack_spec map]. rewrite unpack_cons, Hlo, Hhi, IH. reflexivity.
Qed.

Lemma to_int4_in_range : forall W : matrix,
  Forall (Forall (fun v => -8 <= v <= 7)) W -> map (map to_int4) W = W.
Proof.
  induction 1 as [|row W Hrow _ IH]; [reflexivity|].
  cbn [map]. rewrite IH. f_equal.
  induction Hrow as [|x row Hx _ IHr]; [reflexivity|].
  cbn [map]. now rewrite IHr, to_int4_small.
Qed.

(** X10. Round trip of the packer with the shift-pair unpacking of the
    kernel: for a matrix with an even number of rows, unpacking the packed
    matrix gives back every value truncated to 4 bits, so a matrix with all
    values in [[-8, 7]] is recovered exactly. *)
Theorem unpack_pack_round_trip (W : matrix) (K2 N : nat) :
  length W = (2 * K2)%nat ->
  Forall (fun row => length row = N) W ->
  exists P,
    pack_2xint4 W = inr P
    /\ unpack_2xint4 P = map (map to_int4) W
    /\ (Forall (Forall (fun v => -8 <= v <= 7)) W -> unpack_2xint4 P = W).
Proof.
  intros HW Hrows. exists (map (map to_int8) (pack_spec W)).
  split; [now apply (pack_2xint4_code W K2 N)|].
  rewrite (unpack_pack_spec N K2) by assumption.
  split; [reflexivity|]. apply to_int4_in_range.
Qed.

Lemma unpack_pack_round_trip_witness :
  exists P,
    pack_2xint4 [[7; -8; 20]; [-1; 0; -9]] = inr P
    /\ unpack_2xint4 P = map (map to_int4) [[7; -8; 20]; [-1; 0; -9]]
    /\ (Forall (Forall (fun v => -8 <= v <= 7)) [[7; -8; 20]; [-1; 0; -9]] ->
        unpack_2xint4 P = [[7; -8; 20]; [-1; 0; -9]]).
Proof.
  apply (unpack_pack_round_trip [[7; -8; 20]; [-1; 0; -9]] 1 3).
  - reflexivity.
  - repeat constructor.
Defined.

(** X11. A matrix with an odd number of rows, and at least one column,
    cannot be packed: the reshape to pairs of rows raises. *)
Theorem pack_2xint4_odd_rows_raises (W : matrix) (K2 N : nat) :
  length W = (2 * K2 + 1)%nat ->
  Forall (fun row => length row = N) W ->
  (0 < N)%nat ->
  pack_2xint4 W = inl (RuntimeError "shape is invalid for input size").
Proof.
  intros HW Hrows HN.
  destruct W as [|e0 W'] eqn:EW; [simpl in HW; lia|]. rewrite <- EW in *.
  assert (HN1 : shape1 W = N).
  { subst W. simpl. now inversion Hrows. }
  assert (HK : (shape0 W / 2 = K2)%nat).
  { unfold shape0. rewrite HW. symmetry.
    apply (Nat.div_unique _ _ _ 1%nat); lia. }
  assert (H8 : Forall (fun r => length r = N) (map (map to_int8) W)).
  { apply Forall_map. eapply Forall_impl; [|exact Hrows].
    intros r Hr. now rewrite length_map. }
  unfold pack_2xint4, reshape3. rewrite HN1, HK.
  rewrite (length_concat_rows N) by assumption.
  rewrite length_map, HW.
  replace ((2 * K2 + 1) * N =? K2 * 2 * N)%nat with false
    by (symmetry; apply Nat.eqb_neq; nia).
  reflexivity.
Qed.

Lemma pack_2xint4_odd_rows_raises_witness :
  pack_2xint4 [[1; 2]; [3; 4]; [5; 6]] =
  inl (RuntimeError "shape is invalid for input size").
Proof.
  apply (pack_2xint4_odd_rows_raises [[1; 2]; [3; 4]; [5; 6]] 1 2).
  - reflexivity.
  - repeat constructor.
  - lia.
Defined.

(** ** More on the host driver *)

Lemma unpack_pair_inv (shp : list Z) (x y : Z) :
  unpack_pair shp = inr (x, y) -> shp = [x; y].
Proof.
  destruct shp as [|u [|v [|w rest]]]; try discriminate.
  intros E. injection E as <- <-. reflexivity.
Qed.

Lemma unpack_pair_length (shp : list Z) :
  (exists p, unpack_pair shp = inr p) <-> length shp = 2%nat.
Proof.
  destruct shp as [|u [|v [|w rest]]]; split;
    try (intros [p E]; discriminate); try discriminate.
  - reflexivity.
  - intros _. eexists. reflexivity.
Qed.

Lemma matmul_inv (a b : Tensor) (use_int16 : bool) evs c :
  matmul a b use_int16 = inr (evs, c) ->
  exists M K Kb N,
    is_contiguous a = true /\ shape a = [M; K] /\ shape b = [Kb; N].
Proof.
  unfold matmul. intros E.
  destruct (is_contiguous a) eqn:Ec; [|discriminate].
  cbn [py_assert bind ret] in E.
  destruct (unpack_pair (shape a)) as [e|[M K]] eqn:Ea; [discriminate|].
  cbn [bind] in E.
  destruct (unpack_pair (shape b)) as [e|[Kb N]] eqn:Eb; [discriminate|].
  exists M, K, Kb, N. split; [reflexivity|].
  split; now apply unpack_pair_inv.
Qed.

Lemma matmul_plans (a b : Tensor) (use_int16 : bool) :
  (exists r, matmul a b use_int16 = inr r) <->
  is_contiguous a = true /\ length (shape a) = 2%nat
  /\ length (shape b) = 2%nat.
Proof.
  split.
  - intros [[evs c] E].
    destruct (matmul_inv a b use_int16 evs c E)
      as (M & K & Kb & N & Hc & Ha & Hb).
    rewrite Ha, Hb. auto.
  - intros (Hc & Ha & Hb).
    destruct (shape a) as [|M [|K [|? ?]]] eqn:Ea; try discriminate.
    destruct (shape b) as [|Kb [|N [|? ?]]] eqn:Eb; try discriminate.
    eexists. apply (matmul_returns a b use_int16 M K Kb N Hc Ea Eb).
Qed.

(** X12. A call of [matmul] returns exactly when A is contiguous, both
    operands are two-dimensional and none of the operations it asks of its
    environment raises.  Contiguity is checked first: a non-contiguous A
    raises the assertion error whatever the shapes are, and a contiguous
    operand pair of which one is not two-dimensional raises a value error,
    in both cases before anything is allocated, compiled or launched.  When
    an operation raises, the call raises the same exception and nothing
    after that operation is done. *)
Theorem matmul_run_returns_exactly
    (env : environment) (a b : Tensor) (use_int16 : bool) :
  ((exists c, snd (matmul_run env a b use_int16) = inr c) <->
     is_contiguous a = true /\ length (shape a) = 2%nat
     /\ length (shape b) = 2%nat
     /\ forall evs c,
          matmul a b use_int16 = inr (evs, c) ->
          forall e, In e evs -> env e = None)
  /\ (is_contiguous a = false ->
      matmul_run env a b use_int16 =
      ([], inl (AssertionError "Matrix A must be contiguous")))
  /\ (is_contiguous a = true ->
      length (shape a) <> 2%nat \/ length (shape b) <> 2%nat ->
      matmul_run env a b use_int16 =
      ([], inl (ValueError "wrong number of values to unpack")))
  /\ (forall evs c done e rest x,
        matmul a b use_int16 = inr (evs, c) ->
        evs = done ++ e :: rest ->
        (forall e', In e' done -> env e' = None) ->
        env e = Some x ->
        matmul_run env a b use_int16 = (done ++ [e], inl x)).
Proof.
  split; [|split; [|split]].
  - split.
    + intros [c Hr]. unfold matmul_run in Hr.
      destruct (matmul a b use_int16) as [x|[evs c']] eqn:E;
        [discriminate|].
      destruct (proj1 (matmul_plans a b use_int16)) as (Hc & Ha & Hb);
        [rewrite E; eauto|].
      split; [exact Hc|]. split; [exact Ha|]. split; [exact Hb|].
      intros evs' c'' E'. injection E' as <- <-.
      apply run_events_returns.
      destruct (run_events env evs) as [done [x|]]; [discriminate|].
      reflexivity.
    + intros (Hc & Ha & Hb & Hok).
      destruct (proj2 (matmul_plans a b use_int16)) as [[evs c] E]; [auto|].
      exists c. rewrite (matmul_run_plan env a b use_int16 evs c E).
      cbn [snd].
      now rewrite (proj2 (run_events_returns env evs) (Hok evs c E)).
  - intros Hc. unfold matmul_run, matmul. now rewrite Hc.
  - intros Hc Hsh. unfold matmul_run, matmul. rewrite Hc.
    cbn [py_assert bind ret].
    destruct (shape a) as [|M [|K [|? ?]]] eqn:Ea; try reflexivity.
    destruct (shape b) as [|Kb [|N [|? ?]]] eqn:Eb; try reflexivity.
    simpl in Hsh. destruct Hsh as [H|H]; now elim H.
  - intros evs c done e rest x E -> Hok He.
    rewrite (matmul_run_plan env a b use_int16 _ c E).
    now rewrite (run_events_raise env done rest e x Hok He).
Qed.

(** On a machine without the directory of the dumps a call on the autotuned
    path allocates, launches, fails to open the first dump and returns
    nothing. *)
Lemma matmul_run_returns_exactly_witness :
  exists launched,
    matmul_run missing_dump_directory
      (mkTensor [1; 2] [2; 1]) (mkTensor [2; 1] [1; 1]) false =
    ([ TorchEmpty [1; 1]; launched;
       FileWrite "/home/dberard/local/scripts/triton/int8mm/bf16.ttir" ],
     inl (FileNotFoundError
            "/home/dberard/local/scripts/triton/int8mm/bf16.ttir")).
Proof.
  destruct (matmul_run_returns_exactly missing_dump_directory
              (mkTensor [1; 2] [2; 1]) (mkTensor [2; 1] [1; 1]) false)
    as (_ & _ & _ & H).
  eexists.
  apply (H _ _ [TorchEmpty [1; 1]; _] (FileWrite _) _ _ eq_refl eq_refl).
  - intros e [<-|[<-|[]]]; reflexivity.
  - reflexivity.
Defined.


(** X13. The artifacts of a call: [matmul] writes files only when
    [use_int16] is unset, and then exactly the four dumps [bf16.ttir],
    [bf16.ttgir], [bf16.llir] and [bf16.ptx]; it compiles a file only when
    [use_int16] is set, and then [int16.ttgir].  So the file the int16 path
    loads is never produced by [matmul]. *)
Theorem matmul_artifacts (a b : Tensor) (use_int16 : bool) evs c :
  matmul a b use_int16 = inr (evs, c) ->
  (forall path, In (FileWrite path) evs <->
     use_int16 = false /\
     In path [ "/home/dberard/local/scripts/triton/int8mm/bf16.ttir";
               "/home/dberard/local/scripts/triton/int8mm/bf16.ttgir";
               "/home/dberard/local/scripts/triton/int8mm/bf16.llir";
               "/home/dberard/local/scripts/triton/int8mm/bf16.ptx" ]%string)
  /\ (forall path, In (TritonCompile path) evs <->
        use_int16 = true /\
        path = "/home/dberard/local/scripts/triton/int8mm/int16.ttgir"%string)
  /\ ~ In (FileWrite "/home/dberard/local/scripts/triton/int8mm/int16.ttgir")
          evs.
Proof.
  intros E.
  destruct (matmul_inv a b use_int16 evs c E)
    as (M & K & Kb & N & Hc & Ha & Hb).
  rewrite (matmul_returns a b use_int16 M K Kb N Hc Ha Hb) in E.
  injection E as <- _.
  destruct use_int16; cbn [In app dump_path String.append].
  - split; [|split].
    + intros path. split.
      * intros [H|[H|[H|[]]]]; discriminate.
      * intros [H _]. discriminate.
    + intros path. split.
      * intros [H|[H|[H|[]]]]; try discriminate.
        injection H as <-. split; reflexivity.
      * intros [_ ->]. right. left. reflexivity.
    + intros [H|[H|[H|[]]]]; discriminate.
  - split; [|split].
    + intros path. split.
      * intros [H|[H|[H|[H|[H|[H|[]]]]]]]; try discriminate;
          injection H as <-; (split; [reflexivity|]); simpl; auto.
      * intros [_ [<-|[<-|[<-|[<-|[]]]]]]; simpl; auto 10.
    + intros path. split.
      * intros [H|[H|[H|[H|[H|[H|[]]]]]]]; discriminate.
      * intros [H _]. discriminate.
    + intros [H|[H|[H|[H|[H|[H|[]]]]]]]; discriminate.
Qed.

Lemma matmul_artifacts_witness :
  exists evs c,
    matmul (mkTensor [1; 2] [2; 1]) (mkTensor [2; 1] [1; 1]) false =
    inr (evs, c)
    /\ ~ In (FileWrite "/home/dberard/local/scripts/triton/int8mm/int16.ttgir")
            evs.
Proof.
  do 2 eexists. split; [reflexivity|].
  apply (matmul_artifacts (mkTensor [1; 2] [2; 1]) (mkTensor [2; 1] [1; 1])
           false _ _ eq_refl).
Defined.

Lemma torch_empty_contiguous (M N : Z) :
  0 <= N -> is_contiguous (torch_empty [M; N]) = true.
Proof.
  intros HN. unfold is_contiguous, torch_empty, numel.
  cbn [shape strides dense_strides fold_right combine rev app contiguous_from].
  destruct (Z.eq_dec N 0) as [->|HN0].
  - replace (M * (0 * 1)) with 0 by lia. reflexivity.
  - apply orb_true_iff. right.
    destruct (N =? 1) eqn:E1.
    + destruct (M =? 1); [reflexivity|].
      apply Z.eqb_eq in E1. subst N. reflexivity.
    + rewrite Z.eqb_refl. cbn [andb].
      destruct (M =? 1); [reflexivity|].
      replace (Z.max N 1 * 1 =? 1 * N) with true
        by (symmetry; apply Z.eqb_eq; lia).
      reflexivity.
Qed.

(** X14. What a successful call hands back and launches: the output has
    shape [M x N] with M taken from A and N from B, is contiguous (so it can
    be the A of a next call) and, when it has columns, has the dense strides
    [(N, 1)]; exactly one kernel is launched, and on either path its first
    grid dimension is [ceil(M / 128) * ceil(N / 256)]. *)
Theorem matmul_output_and_launch (a b : Tensor) (use_int16 : bool) evs c :
  matmul a b use_int16 = inr (evs, c) ->
  exists M K Kb N,
    shape a = [M; K] /\ shape b = [Kb; N]
    /\ shape c = [M; N]
    /\ (0 <= N -> is_contiguous c = true)
    /\ (0 < N -> stride c 0 = N /\ stride c 1 = 1)
    /\ exists before k dims args after,
         evs = before ++ KernelLaunch k (Tl.cdiv M 128 * Tl.cdiv N 256 :: dims)
                           args :: after
         /\ forall k' dims' args',
              ~ In (KernelLaunch k' dims' args') (before ++ after).
Proof.
  intros E.
  destruct (matmul_inv a b use_int16 evs c E)
    as (M & K & Kb & N & Hc & Ha & Hb).
  rewrite (matmul_returns a b use_int16 M K Kb N Hc Ha Hb) in E.
  injection E as <- <-.
  exists M, K, Kb, N.
  split; [exact Ha|]. split; [exact Hb|]. split; [reflexivity|].
  split; [apply torch_empty_contiguous|].
  split.
  { intros HN. unfold stride, torch_empty.
    cbn [strides dense_strides fold_right nth]. lia. }
  destruct use_int16.
  - exists [TorchEmpty [M; N]; TritonCompile int16_ttgir].
    do 3 eexists. exists []. split; [reflexivity|].
    intros k' d' a' [H|[H|[]]]; discriminate.
  - exists [TorchEmpty [M; N]]. do 3 eexists.
    eexists. split; [reflexivity|].
    intros k' d' a' [H|[H|[H|[H|[H|[]]]]]]; discriminate.
Qed.

Lemma matmul_output_and_launch_witness :
  exists M K Kb N,
    shape (mkTensor [300; 64] [64; 1]) = [M; K]
    /\ shape (mkTensor [64; 700] [700; 1]) = [Kb; N]
    /\ shape (torch_empty [300; 700]) = [M; N]
    /\ (0 <= N -> is_contiguous (torch_empty [300; 700]) = true)
    /\ (0 < N -> stride (torch_empty [300; 700]) 0 = N
                 /\ stride (torch_empty [300; 700]) 1 = 1)
    /\ exists before k dims args after,
         fst (match matmul (mkTensor [300; 64] [64; 1])
                      (mkTensor [64; 700] [700; 1]) false with
              | inr r => r
              | inl _ => ([], torch_empty [])
              end) =
         before ++ KernelLaunch k (Tl.cdiv M 128 * Tl.cdiv N 256 :: dims)
                     args :: after
         /\ forall k' dims' args',
              ~ In (KernelLaunch k' dims' args') (before ++ after).
Proof.
  apply (matmul_output_and_launch (mkTensor [300; 64] [64; 1])
           (mkTensor [64; 700] [700; 1]) false).
  reflexivity.
Defined.

(** ** Instances of the launch theorems

    A 2 x 3 output computed from a 2 x 4 matrix A and a 4 x 3 matrix B, all
    dense, in blocks of 2 x 2 with reduction steps of 2. *)

Lemma activation_loads_in_bounds_witness :
  Forall (fun addr => 0 <= addr < 2 * 4)
    (a_reads
       (reduction Z 0 Z.add Z.mul bfloat16_of_Z (fun x => x + 1) (fun x => x)
          2 3 4 4 1 3 1 (mkConfig 2 2 2 8 1 1) false 0 1)).
Proof.
  apply Forall_forall. intros addr Ha.
  destruct (activation_loads_in_bounds Z 0 Z.add Z.mul bfloat16_of_Z
              (fun x => x + 1) (fun x => x) 2 3 4 4 1 3 1
              (mkConfig 2 2 2 8 1 1) false)
    with (pid_m := 0) (pid_n := 1) as [_ Hd];
    [vm_compute; intuition congruence ..|].
  apply Hd; [reflexivity|reflexivity|exact Ha].
Defined.

Lemma weight_load_overruns_without_divisibility_witness :
  exists addr r c,
    In addr
      (b_reads
         (reduction Z 0 Z.add Z.mul bfloat16_of_Z (fun x => x + 1)
            (fun x => x) 2 3 3 3 1 3 1 (mkConfig 2 2 2 8 1 1) false 0 1))
    /\ 3 <= r /\ 0 <= c < 3
    /\ addr = r * 3 + c * 1
    /\ (3 = 3 -> 1 = 1 -> 3 * 3 <= addr).
Proof.
  apply (weight_load_overruns_without_divisibility Z 0 Z.add Z.mul
           bfloat16_of_Z (fun x => x + 1) (fun x => x) 2 3 3 3 1 3 1
           (mkConfig 2 2 2 8 1 1) false);
    vm_compute; intuition congruence.
Defined.

Lemma launch_writes_each_cell_once_witness :
  let written :=
    map fst
      (launch_stores Z 0 Z.add Z.mul bfloat16_of_Z (fun x => x + 1)
         (fun x => x) 2 3 4 4 1 3 1 3 1 (mkConfig 2 2 2 8 1 1) false false
         (grid 2 3 (mkConfig 2 2 2 8 1 1))) in
  NoDup written
  /\ (forall addr, In addr written <-> 0 <= addr < 2 * 3)
  /\ Z.of_nat (length written) = 2 * 3.
Proof.
  apply (launch_writes_each_cell_once Z 0 Z.add Z.mul bfloat16_of_Z
           (fun x => x + 1) (fun x => x) 2 3 4 4 1 3 1
           (mkConfig 2 2 2 8 1 1) false false);
    vm_compute; intuition congruence.
Defined.

Lemma every_instance_writes_witness :
  let row := fst (tile_of_pid 2 3 (mkConfig 2 2 2 8 1 1) 1) * 2 in
  let col := snd (tile_of_pid 2 3 (mkConfig 2 2 2 8 1 1) 1) * 2 in
  0 <= row < 2 /\ 0 <= col < 3
  /\ In (3 * row + 1 * col)
       (map fst
          (stores_of Z
             (matmul_kernel Z 0 Z.add Z.mul bfloat16_of_Z (fun x => x + 1)
                (fun x => x) 2 3 4 4 1 3 1 3 1 (mkConfig 2 2 2 8 1 1)
                false false 1))).
Proof.
  apply (every_instance_writes Z 0 Z.add Z.mul bfloat16_of_Z
           (fun x => x + 1) (fun x => x) 2 3 4 4 1 3 1
           (mkConfig 2 2 2 8 1 1) false false);
    vm_compute; intuition congruence.
Defined.

Lemma empty_reduction_stores_zero_witness :
  exists st,
    matmul_kernel Z 0 Z.add Z.mul bfloat16_of_Z (fun x => x + 1) (fun x => x)
      2 3 0 0 1 3 1 3 1 (mkConfig 2 2 2 8 1 1) false false 1 =
    Finished [] [] st
    /\ forall addr v, In (addr, v) st -> v = bfloat16_of_Z 0.
Proof.
  apply (empty_reduction_stores_zero Z 0 Z.add Z.mul bfloat16_of_Z
           (fun x => x + 1) (fun x => x) 2 3 0 0 1 3 1 3 1
           (mkConfig 2 2 2 8 1 1) false false 1).
  - reflexivity.
  - vm_compute. reflexivity.
Defined.
